(** * stl2mtl: the STL-to-MITL pipeline of [exe2.cpp]

    A shallow embedding of the program's functions and the properties its
    specification states about them.

    Conventions of the embedding.
    - [std::string] is [string]: a sequence of 8-bit characters.
    - [std::regex] (ECMAScript grammar, classic "C" locale) is embedded for
      the constructs the three patterns of the program use: single-character
      atoms, the greedy quantifiers [?], [*] and [+] applied to such an atom,
      the assertion [\b] and capturing groups around one quantified atom.
      Matching is the backtracking, leftmost, priority-ordered search of the
      ECMAScript semantics.
    - [std::map<std::string, std::string>] is a finite map whose elements are
      listed in increasing key order; [std::set<int>] is a finite set of
      integers listed in increasing order.
    - [double] is IEEE-754 binary64 with round-to-nearest-even.
    - An uncaught exception or undefined behaviour is an explicit [fault]. *)

From Stdlib Require Import Bool Arith ZArith Lia List.
From Stdlib Require Import Ascii String.
From Stdlib Require Import Numbers.DecimalString.
From Stdlib Require Import Floats.SpecFloat.
From Stdlib Require Import FSets.FMapList FSets.FMapFacts.
From Stdlib Require Import MSets.MSetList.
From Stdlib Require Structures.OrderedTypeEx Structures.OrdersEx.
From Stdlib Require Numbers.DecimalZ Numbers.DecimalPos.
Import ListNotations.

Local Open Scope string_scope.
Local Open Scope list_scope.
Local Open Scope nat_scope.

(* ------------------------------------------------------------------ *)
(** * Strings *)

Module Str.

(** [s.substr(0, n)] *)
Fixpoint take (n : nat) (s : string) : string :=
  match n, s with
  | S n', String c s' => String c (take n' s')
  | _, _ => EmptyString
  end.

(** The part of [s] in front of its suffix [rest]. *)
Definition consumed (s rest : string) : string :=
  take (String.length s - String.length rest) s.

Fixpoint all (p : ascii -> bool) (s : string) : bool :=
  match s with
  | EmptyString => true
  | String c s' => p c && all p s'
  end.

Fixpoint drop_while (p : ascii -> bool) (s : string) : string :=
  match s with
  | EmptyString => EmptyString
  | String c s' => if p c then drop_while p s' else s
  end.

Fixpoint take_while (p : ascii -> bool) (s : string) : string :=
  match s with
  | EmptyString => EmptyString
  | String c s' => if p c then String c (take_while p s') else EmptyString
  end.

(** The last character of [m], or [prev] when [m] is empty. *)
Fixpoint last_char (prev : option ascii) (m : string) : option ascii :=
  match m with
  | EmptyString => prev
  | String c m' => last_char (Some c) m'
  end.

Fixpoint starts_with (p s : string) : bool :=
  match p, s with
  | EmptyString, _ => true
  | String a p', String b s' => Ascii.eqb a b && starts_with p' s'
  | String _ _, EmptyString => false
  end.

(** [s.find(p)]: the position of the first occurrence, [None] for [npos]. *)
Fixpoint find (p s : string) : option nat :=
  if starts_with p s then Some 0
  else match s with
       | EmptyString => None
       | String _ s' => option_map S (find p s')
       end.

Definition contains_char (c : ascii) (s : string) : bool :=
  negb (all (fun x => negb (Ascii.eqb x c)) s).

(** [s] does not begin with a character satisfying [p]. *)
Definition stops (p : ascii -> bool) (s : string) : Prop :=
  match s with
  | EmptyString => True
  | String c _ => p c = false
  end.

(** [s.substr(n)] *)
Fixpoint drop (n : nat) (s : string) : string :=
  match n, s with
  | S n', String _ s' => drop n' s'
  | _, _ => s
  end.

Definition ends_with (suffix s : string) : bool :=
  String.eqb (drop (String.length s - String.length suffix) s) suffix.

(** [std::to_string] on an integer. *)
Definition to_string (z : Z) : string := NilZero.string_of_int (Z.to_int z).

End Str.

(* ------------------------------------------------------------------ *)
(** * Character classes of the classic locale *)

Module Ctype.

Definition code (c : ascii) : nat := nat_of_ascii c.

Definition between (lo hi : nat) (c : ascii) : bool :=
  (lo <=? code c) && (code c <=? hi).

(** [\d] *)
Definition is_digit (c : ascii) : bool := between 48 57 c.

(** [\s]: space, and the controls from horizontal tab to carriage return *)
Definition is_space (c : ascii) : bool := (code c =? 32) || between 9 13 c.

(** [\w]: letters, digits and the underscore *)
Definition is_word (c : ascii) : bool :=
  between 48 57 c || between 65 90 c || between 97 122 c || (code c =? 95).

(** [[\d\.]] *)
Definition is_digit_or_dot (c : ascii) : bool := is_digit c || Ascii.eqb c ".".

(** [[<>]] *)
Definition is_angle (c : ascii) : bool := Ascii.eqb c "<" || Ascii.eqb c ">".

(** A literal pattern character. *)
Definition is_char (a : ascii) (c : ascii) : bool := Ascii.eqb c a.

(** The pattern character [.]: anything but a line terminator. *)
Definition is_line_terminator (c : ascii) : bool :=
  (code c =? 10) || (code c =? 13).

Definition any_char (c : ascii) : bool := negb (is_line_terminator c).

End Ctype.

(* ------------------------------------------------------------------ *)
(** * The regular-expression engine *)

Module Regex.

Import Str Ctype.

Inductive item : Type :=
| One (p : ascii -> bool)     (* an atom matching one character *)
| Opt (p : ascii -> bool)     (* atom?  *)
| Star (p : ascii -> bool)    (* atom*  *)
| Plus (p : ascii -> bool)    (* atom+  *)
| Bnd                         (* \b     *)
| Grp (it : item).            (* ( ... ) around one item *)

Definition regex := list item.

(** A match: the matched text [match[0]] and the captures
    [match[1], match[2], ...]. *)
Record smatch : Type := { whole : string; subs : list string }.

(** [\b]: exactly one of the characters around the position is a word
    character; there is no character before the start of the text or after
    its end. *)
Definition word_boundary (prev : option ascii) (s : string) : bool :=
  xorb (match prev with Some c => is_word c | None => false end)
       (match s with String c _ => is_word c | EmptyString => false end).

Section Run.

Context {R : Type}.

(** What remains to be done after a piece of the pattern has matched: it is
    given the character in front of the position, the remaining text and the
    captures made so far, and fails with [None] to force backtracking. *)
Definition cont := option ascii -> string -> list string -> option R.

Definition atom (p : ascii -> bool) (k : cont) : cont :=
  fun prev s caps =>
    match s with
    | String c s' => if p c then k (Some c) s' caps else None
    | EmptyString => None
    end.

(** Greedy repetition: one more character first, giving it back when the
    rest of the pattern fails. *)
Fixpoint rep (p : ascii -> bool) (k : cont) (prev : option ascii) (s : string)
  (caps : list string) {struct s} : option R :=
  match s with
  | String c s' =>
      if p c then
        match rep p k (Some c) s' caps with
        | Some r => Some r
        | None => k prev s caps
        end
      else k prev s caps
  | EmptyString => k prev s caps
  end.

Fixpoint item_run (it : item) (k : cont) : cont :=
  match it with
  | One p => atom p k
  | Opt p => fun prev s caps =>
      match atom p k prev s caps with
      | Some r => Some r
      | None => k prev s caps
      end
  | Star p => rep p k
  | Plus p => atom p (rep p k)
  | Bnd => fun prev s caps =>
      if word_boundary prev s then k prev s caps else None
  | Grp it' => fun prev s caps =>
      item_run it' (fun prev' rest caps' =>
                      k prev' rest (caps' ++ [consumed s rest])) prev s caps
  end.

Fixpoint run (re : regex) (k : cont) : cont :=
  match re with
  | [] => k
  | it :: re' => item_run it (run re' k)
  end.

(** A continuation that cannot fail after the text [m]. *)
Definition accepts (k : cont) (prev : option ascii) (rest : string) : Prop :=
  forall caps, k prev rest caps <> None.

End Run.

(** One attempt at the position in front of [s]; under [not_null]
    ([match_not_null]) an empty match is rejected and the search backtracks. *)
Definition match_at (not_null : bool) (re : regex) (prev : option ascii)
  (s : string) : option (smatch * string) :=
  run re (fun _ rest caps =>
            if not_null && (String.length rest =? String.length s) then None
            else Some ({| whole := consumed s rest; subs := caps |}, rest))
      prev s [].

(** [std::regex_search]: the first position, from the left, at which an
    attempt succeeds; returns prefix, match and suffix. *)
Fixpoint regex_search_from (re : regex) (prev : option ascii) (s : string)
  : option (string * smatch * string) :=
  match match_at false re prev s with
  | Some (m, rest) => Some (EmptyString, m, rest)
  | None =>
      match s with
      | EmptyString => None
      | String c s' =>
          match regex_search_from re (Some c) s' with
          | Some (pre, m, suf) => Some (String c pre, m, suf)
          | None => None
          end
      end
  end.

Definition regex_search (re : regex) (s : string) := regex_search_from re None s.

(** The text seen through a [std::sregex_iterator]: the characters that lie
    outside every match, and the matches. *)
Inductive token : Type :=
| Lit (c : ascii)
| Hit (m : smatch).

(** The iterator walks the text from the left.  [skip] counts the characters
    of the current match that are still to be passed.  After an empty match
    the iterator first looks for a non-empty match at the same position and
    otherwise moves one character on. *)
Fixpoint scan (re : regex) (prev : option ascii) (s : string) (skip : nat)
  {struct s} : list token :=
  match skip with
  | S n =>
      match s with
      | String c s' => scan re (Some c) s' n
      | EmptyString => []
      end
  | O =>
      match match_at false re prev s with
      | Some (m, _) =>
          match s with
          | EmptyString => [Hit m]
          | String c s' =>
              match String.length (whole m) with
              | S n => Hit m :: scan re (Some c) s' n
              | O =>
                  match match_at true re prev s with
                  | Some (m', _) =>
                      Hit m :: Hit m' :: scan re (Some c) s' (String.length (whole m') - 1)
                  | None => Hit m :: Lit c :: scan re (Some c) s' 0
                  end
              end
          end
      | None =>
          match s with
          | EmptyString => []
          | String c s' => Lit c :: scan re (Some c) s' 0
          end
      end
  end.

Definition tokens (re : regex) (s : string) : list token := scan re None s 0.

Fixpoint hits (ts : list token) : list smatch :=
  match ts with
  | [] => []
  | Lit _ :: ts' => hits ts'
  | Hit m :: ts' => m :: hits ts'
  end.

(** The output of [std::regex_replace] for a format string without [$]:
    every match is replaced, the text outside the matches is copied. *)
Fixpoint substitute (fmt : string) (ts : list token) : string :=
  match ts with
  | [] => EmptyString
  | Lit c :: ts' => String c (substitute fmt ts')
  | Hit _ :: ts' => fmt ++ substitute fmt ts'
  end.

(** ** What a pattern may match *)

(** What a pattern may match, whichever way the search goes: [MatchItem it
    prev m rest] says that [it] can match the text [m] when [prev] is the
    character in front of it and [rest] is what follows. *)
Inductive MatchItem : item -> option ascii -> string -> string -> Prop :=
| MI_one p prev c rest :
    p c = true -> MatchItem (One p) prev (String c "") rest
| MI_opt_one p prev c rest :
    p c = true -> MatchItem (Opt p) prev (String c "") rest
| MI_opt_none p prev rest :
    MatchItem (Opt p) prev "" rest
| MI_star p prev m rest :
    all p m = true -> MatchItem (Star p) prev m rest
| MI_plus p prev c m rest :
    p c = true -> all p m = true -> MatchItem (Plus p) prev (String c m) rest
| MI_bnd prev rest :
    word_boundary prev rest = true -> MatchItem Bnd prev "" rest
| MI_grp it prev m rest :
    MatchItem it prev m rest -> MatchItem (Grp it) prev m rest.

Inductive Matches : regex -> option ascii -> string -> string -> Prop :=
| M_nil prev rest : Matches [] prev "" rest
| M_cons it re prev m1 m2 rest :
    MatchItem it prev m1 (m2 ++ rest) ->
    Matches re (last_char prev m1) m2 rest ->
    Matches (it :: re) prev (m1 ++ m2) rest.

(** The least number of characters a match takes. *)
Fixpoint item_min (it : item) : nat :=
  match it with
  | One _ | Plus _ => 1
  | Opt _ | Star _ | Bnd => 0
  | Grp it' => item_min it'
  end.

Definition min_len (re : regex) : nat := list_sum (map item_min re).

End Regex.

(* ------------------------------------------------------------------ *)
(** * Abnormal ends *)

Inductive fault : Type :=
| invalid_argument   (* std::invalid_argument, thrown by std::stod *)
| out_of_range       (* std::out_of_range, thrown by std::stod *)
| undefined          (* the C++ standard leaves the behaviour undefined *)
| unsupported        (* a pattern or format outside the embedded fragment *)
| out_of_fuel.       (* a loop of the embedding was cut short *)

Inductive result (A : Type) : Type :=
| Ok (a : A)
| Fail (f : fault).

Arguments Ok {A} a.
Arguments Fail {A} f.

Definition bind {A B : Type} (r : result A) (k : A -> result B) : result B :=
  match r with
  | Ok a => k a
  | Fail f => Fail f
  end.

Notation "x <- r ;; k" := (bind r (fun x => k))
  (at level 61, r at next level, right associativity).

(* ------------------------------------------------------------------ *)
(** * Containers *)

(** [std::map<std::string, std::string>]: keys compared byte by byte,
    elements listed in increasing key order. *)
Module SM := FMapList.Make(OrderedTypeEx.String_as_OT).
Module SMF := FMapFacts.Facts(SM).

(** [std::set<int>]: elements listed in increasing order. *)
Module ZS := MSetList.Make(OrdersEx.Z_as_OT).

(* ------------------------------------------------------------------ *)
(** * Proposition extractor and renamer *)

Import Str Ctype Regex.

(** [(\w+\s*[<>]=?\s*[\d\.]+)].  The enclosing group is the whole match, and
    only the whole match is read ([it->str()]). *)
Definition propPattern : regex :=
  [Plus is_word; Star is_space; One is_angle; Opt (is_char "=");
   Star is_space; Plus is_digit_or_dot].

Definition extractAtomicPropositions (stlFormula : string) : list string :=
  map whole (hits (tokens propPattern stlFormula)).

(** The characters with a meaning of their own in a pattern. *)
Definition is_meta (c : ascii) : bool :=
  existsb (Ascii.eqb c)
    ["^"; "$"; "\"; "."; "*"; "+"; "?"; "("; ")"; "["; "]"; "{"; "}"; "|"]%char.

(** A character of a proposition text read as a piece of a pattern: [.] is
    the wildcard, any character without a meaning of its own stands for
    itself.  The other special characters do not occur in extracted
    propositions and are not embedded. *)
Definition key_item (c : ascii) : result item :=
  if Ascii.eqb c "." then Ok (One any_char)
  else if is_meta c then Fail unsupported
  else Ok (One (is_char c)).

Fixpoint key_items (key : string) : result regex :=
  match key with
  | EmptyString => Ok []
  | String c key' =>
      it <- key_item c ;;
      re <- key_items key' ;;
      Ok (it :: re)
  end.

(** [std::regex("\\b" + key + "\\b")] *)
Definition word_regex (key : string) : result regex :=
  re <- key_items key ;; Ok (Bnd :: re ++ [Bnd]).

(** [std::regex_replace(s, re, fmt)] with the default flags: every match is
    replaced.  A [$] in [fmt] would start a format sequence; the program never
    builds such a format, and it is not embedded. *)
Definition regex_replace (s : string) (re : regex) (fmt : string) : result string :=
  if contains_char "$" fmt then Fail unsupported
  else Ok (substitute fmt (tokens re s)).

(** One turn of the loop of [replaceAtomicProps]. *)
Definition rename_step (mitlFormula : string) (pair : string * string)
  : result string :=
  re <- word_regex (fst pair) ;;
  regex_replace mitlFormula re (snd pair).

Definition replaceAtomicProps (stlFormula : string) (propMap : SM.t string)
  : result string :=
  fold_left (fun acc pair => mitlFormula <- acc ;; rename_step mitlFormula pair)
            (SM.elements propMap) (Ok stlFormula).

(** The loop of [main] that fills the map: [propMap[atomicProps[i]] = "p" +
    std::to_string(i + 1)], for [i] from [0]. *)
Definition boolean_name (i : nat) : string :=
  "p" ++ to_string (Z.of_nat (i + 1)).

Fixpoint fill_map (atomicProps : list string) (i : nat) (propMap : SM.t string)
  : SM.t string :=
  match atomicProps with
  | [] => propMap
  | prop :: rest => fill_map rest (S i) (SM.add prop (boolean_name i) propMap)
  end.

Definition build_map (atomicProps : list string) : SM.t string :=
  fill_map atomicProps 0 (SM.empty string).

(** ** What the extractor is to return *)

(** The shape identifier, relational operator, number: a non-empty word,
    optional white space, [<] or [>] with an optional [=], optional white
    space, and a non-empty run of digits and periods. *)
Definition is_prop (m : string) : Prop :=
  exists w s1 o e s2 n,
    m = (w ++ s1 ++ String o (e ++ s2 ++ n))%string /\
    w <> "" /\ all is_word w = true /\
    all is_space s1 = true /\
    is_angle o = true /\
    (e = "" \/ e = "=") /\
    all is_space s2 = true /\
    n <> "" /\ all is_digit_or_dot n = true.

(** The list of the propositions of a text, read from the left: at a
    position where no proposition starts the character is passed; where one
    starts, the longest one is taken and reading resumes behind it. *)
Inductive Extracts : string -> list string -> Prop :=
| Ex_end : Extracts "" []
| Ex_pass c s ms :
    (forall m r, String c s = (m ++ r)%string -> ~ is_prop m) ->
    Extracts s ms ->
    Extracts (String c s) ms
| Ex_take m r ms :
    is_prop m ->
    (forall m' r', (m ++ r = m' ++ r')%string -> is_prop m' ->
                   String.length m' <= String.length m) ->
    Extracts r ms ->
    Extracts (m ++ r) (m :: ms).

(** The first five pieces of the pattern: everything before the number. *)
Definition prop_head : regex :=
  [Plus is_word; Star is_space; One is_angle; Opt (is_char "="); Star is_space].

(* ------------------------------------------------------------------ *)
(** * Floating point *)

Module Double.

Local Open Scope Z_scope.

(** [double]: IEEE-754 binary64. *)
Definition double := spec_float.

Definition prec : Z := 53.
Definition emax : Z := 1024.

(** Conversion of an integer; exact below [2^53]. *)
Definition of_int (z : Z) : double := binary_normalize prec emax z 0 false.

(** The double nearest to the fraction [n / d]. *)
Definition of_ratio (n d : positive) : double :=
  SFdiv prec emax (S754_finite false n 0) (S754_finite false d 0).

Definition add : double -> double -> double := SFadd prec emax.
Definition ltb : double -> double -> bool := SFltb.
Definition leb : double -> double -> bool := SFleb.

(** The literal [0.1]. *)
Definition tenth : double := of_ratio 1 10.

(** The integer part of the magnitude of a finite number. *)
Definition magnitude_floor (m : positive) (e : Z) : Z :=
  if 0 <=? e then Zpos m * 2 ^ e else Zpos m / 2 ^ (- e).

(** [std::round]: to the nearest integer, halfway cases away from zero. *)
Definition round (x : double) : double :=
  match x with
  | S754_finite s m e =>
      if 0 <=? e then x
      else
        let d := 2 ^ (- e) in
        let q := Zpos m / d in
        let r := Zpos m mod d in
        let q' := if d <=? 2 * r then q + 1 else q in
        binary_normalize prec emax (cond_Zopp s q') 0 s
  | _ => x
  end.

Definition INT_MAX : Z := 2147483647.
Definition INT_MIN : Z := -2147483648.

(** [static_cast<int>]: truncation; undefined when the truncated value is
    not an [int]. *)
Definition to_int (x : double) : result Z :=
  match x with
  | S754_zero _ => Ok 0
  | S754_finite s m e =>
      let z := cond_Zopp s (magnitude_floor m e) in
      if (INT_MIN <=? z) && (z <=? INT_MAX) then Ok z else Fail undefined
  | _ => Fail undefined
  end.

(** The value of a run of decimal digits. *)
Fixpoint decimal (acc : Z) (s : string) : Z :=
  match s with
  | EmptyString => acc
  | String c s' => decimal (10 * acc + (Z.of_nat (code c) - 48)) s'
  end.

Fixpoint pow10 (k : nat) : positive :=
  match k with
  | O => 1%positive
  | S k' => (10 * pow10 k')%positive
  end.

(** The fraction [n / d] is tiny: it lies below the least normal number
    [2^-1022] and stays below it when rounded to 53 bits with an exponent
    without lower limit, that is, [n / d < 2^-1022 - 2^-1076]. *)
Definition tiny (n d : positive) : bool :=
  Zpos n * 2 ^ 1076 <? (2 ^ 54 - 1) * Zpos d.

(** The double [m * 2^e] is the fraction [n / d] exactly. *)
Definition exact (n d m : positive) (e : Z) : bool :=
  Zpos n * 2 ^ Z.max 0 (- e) =? Zpos m * 2 ^ Z.max 0 e * Zpos d.

(** [std::stod] on a text of digits and periods.  The number read is the
    longest prefix made of digits with at most one period; it is converted
    to the nearest double.  Without any digit nothing is converted and
    [std::invalid_argument] is thrown.  [std::out_of_range] is thrown when
    [strtod] reports a range error: for a value beyond the largest double,
    and for a non-zero value that is tiny and not a double exactly (a
    subnormal number written out in full is returned). *)
Definition stod (str : string) : result double :=
  let ip := take_while is_digit str in
  let fp := match drop_while is_digit str with
            | String "."%char r => take_while is_digit r
            | _ => EmptyString
            end in
  match (ip ++ fp)%string with
  | EmptyString => Fail invalid_argument
  | ds =>
      match decimal 0 ds with
      | Zpos n =>
          let d := pow10 (String.length fp) in
          match of_ratio n d with
          | S754_finite s m e =>
              if tiny n d && negb (exact n d m e) then Fail out_of_range
              else Ok (S754_finite s m e)
          | _ => Fail out_of_range
          end
      | _ => Ok (S754_zero false)
      end
  end.

End Double.

(* ------------------------------------------------------------------ *)
(** * Signal synthesis and partition points *)

Import Double.

Local Open Scope string_scope.

Definition sample : Type := double * list bool.

(** The three step functions of [synthesizeSignal]. *)
Definition y (t : double) : bool := ltb t (of_int 10).
Definition z (t : double) : bool := leb (of_int 5) t && ltb t (of_int 15).
Definition x (t : double) : bool := leb (of_int 8) t && ltb t (of_int 20).

(** [for (double t = 0; t <= T; t += 0.1) signal.push_back(...)], from the
    current value of [t].  The loop is cut after [fuel] turns. *)
Fixpoint synthesize_from (fuel : nat) (T t : double) : result (list sample) :=
  match fuel with
  | O => Fail out_of_fuel
  | S fuel' =>
      if leb t T then
        signal <- synthesize_from fuel' T (add t tenth) ;;
        Ok ((t, [y t; z t; x t]) :: signal)
      else Ok []
  end.

Definition synthesizeSignal (fuel : nat) (T : double) : result (list sample) :=
  synthesize_from fuel T (of_int 0).

Definition vector_bool_eqb (u v : list bool) : bool :=
  if list_eq_dec bool_dec u v then true else false.

(** The loop of [constructStablePartitions], [before] being [signal[i - 1]]. *)
Fixpoint partitions_from (before : sample) (signal : list sample)
  (partitionPoints : ZS.t) : result ZS.t :=
  match signal with
  | [] => Ok partitionPoints
  | here :: signal' =>
      if vector_bool_eqb (snd here) (snd before)
      then partitions_from here signal' partitionPoints
      else
        p <- to_int (round (fst here)) ;;
        partitions_from here signal' (ZS.add p partitionPoints)
  end.

Definition constructStablePartitions (signal : list sample) : result ZS.t :=
  match signal with
  | [] => Ok ZS.empty
  | first :: signal' => partitions_from first signal' ZS.empty
  end.

(* ------------------------------------------------------------------ *)
(** * Temporal partitioner *)

Definition lit (a : ascii) : item := One (is_char a).

(** [\bG\s*\[\s*([\d\.]+)\s*,\s*([\d\.]+)\s*\]\s*\(\(p2\)\s*U\s*\(p3\)\)] *)
Definition gPattern : regex :=
  [Bnd; lit "G"; Star is_space; lit "["; Star is_space;
   Grp (Plus is_digit_or_dot); Star is_space; lit ","; Star is_space;
   Grp (Plus is_digit_or_dot); Star is_space; lit "]"; Star is_space;
   lit "("; lit "("; lit "p"; lit "2"; lit ")"; Star is_space; lit "U";
   Star is_space; lit "("; lit "p"; lit "3"; lit ")"; lit ")"].

(** ["G [" + std::to_string(lo) + ", " + std::to_string(hi) + "] ((p2) U (p3)) "] *)
Definition conjunct (lo hi : Z) : string :=
  "G [" ++ to_string lo ++ ", " ++ to_string hi ++ "] ((p2) U (p3)) ".

Definition wedge : string := "∧ ".

(** [partitionPoints.lower_bound(a)]: the elements from the first one that
    is not less than [a] on. *)
Fixpoint not_less_than (a : Z) (elements : list Z) : list Z :=
  match elements with
  | [] => []
  | t :: rest => if (t <? a)%Z then not_less_than a rest else elements
  end.

Definition lower_bound (a : Z) (partitionPoints : ZS.t) : list Z :=
  not_less_than a (ZS.elements partitionPoints).

(** The [while] loop over the partition points from [it] on.  The sum
    [t + 1] is an [int]: it overflows at [INT_MAX]. *)
Fixpoint partition_loop (it : list Z) (b prev : Z) (replacement : string)
  : result (Z * string) :=
  match it with
  | t :: it' =>
      if (t <=? b)%Z then
        let replacement :=
          if (prev <=? t)%Z then
            replacement ++ conjunct prev t ++ (if (t <? b)%Z then wedge else "")
          else replacement in
        if (t =? INT_MAX)%Z then Fail undefined
        else partition_loop it' b (t + 1) replacement
      else Ok (prev, replacement)
  | [] => Ok (prev, replacement)
  end.

(** The replacement text computed from the bounds [a] and [b]. *)
Definition build_replacement (partitionPoints : ZS.t) (a b : Z) : result string :=
  r <- partition_loop (lower_bound a partitionPoints) b a "" ;;
  Ok (if (fst r <=? b)%Z then snd r ++ conjunct (fst r) b else snd r).

(** [static_cast<int>(std::stod(match[i]))] *)
Definition bound (m : smatch) (i : nat) : result Z :=
  d <- stod (nth (i - 1) (subs m) "") ;; to_int d.

Definition partitionTemporalOperators (mitlFormula : string)
  (partitionPoints : ZS.t) : result string :=
  match regex_search gPattern mitlFormula with
  | Some (_, m, _) =>
      a <- bound m 1 ;;
      b <- bound m 2 ;;
      replacement <- build_replacement partitionPoints a b ;;
      regex_replace mitlFormula gPattern replacement
  | None => Ok mitlFormula
  end.

(* ------------------------------------------------------------------ *)
(** * File writer and [main] *)

(** The name under which the file is opened. *)
Definition mitl_filename (filename : string) : string :=
  match find ".mitl" filename with
  | None => filename ++ ".mitl"
  | Some _ => filename
  end.

(** What a run leaves behind: the last lines of the two streams and the
    file written.  The transcript that [main] prints between its steps does
    not influence any later step and is not embedded. *)
Record effects : Type :=
  { cout : string; cerr : string; file : option (string * string) }.

Definition endl : string := String (ascii_of_nat 10) "".

(** [can_open] says for which paths the [std::ofstream] opens. *)
Definition writeMITLToFile (can_open : string -> bool)
  (mitlFormula filename : string) : effects :=
  let filename := mitl_filename filename in
  if can_open filename then
    {| cout := "MITL formula written to " ++ filename ++ endl;
       cerr := "";
       file := Some (filename, mitlFormula) |}
  else
    {| cout := "";
       cerr := "Error: Unable to write to file " ++ filename ++ endl;
       file := None |}.

(** [std::getline]: the text up to the first line feed. *)
Definition not_newline (c : ascii) : bool := negb (code c =? 10)%nat.

Definition getline (input : string) : string * string :=
  (take_while not_newline input,
   match drop_while not_newline input with
   | String _ rest => rest
   | EmptyString => EmptyString
   end).

(** [std::cin >> filename]: white space is skipped, then the characters up
    to the next white space are read. *)
Definition read_word (input : string) : string :=
  take_while (fun c => negb (is_space c)) (drop_while is_space input).

(** How the process ends: by [return status], or by [std::terminate] after
    an exception nobody catches (or worse). *)
Inductive outcome : Type :=
| Exited (status : Z) (e : effects)
| Aborted (f : fault).

Definition horizon : double := of_int 30.

Definition pipeline (fuel : nat) (stlFormula : string) : result string :=
  let atomicProps := extractAtomicPropositions stlFormula in
  let propMap := build_map atomicProps in
  signal <- synthesizeSignal fuel horizon ;;
  partitionPoints <- constructStablePartitions signal ;;
  mitlFormula <- replaceAtomicProps stlFormula propMap ;;
  partitionTemporalOperators mitlFormula partitionPoints.

Definition main (fuel : nat) (can_open : string -> bool) (stdin : string)
  : outcome :=
  let (stlFormula, stdin') := getline stdin in
  match pipeline fuel stlFormula with
  | Ok mitlFormula =>
      Exited 0 (writeMITLToFile can_open mitlFormula (read_word stdin'))
  | Fail f => Aborted f
  end.

(* ------------------------------------------------------------------ *)
(** * What the partitioner is said to do, and what it does *)

(** The reading of the specification: the first occurrence of the shape is
    replaced by some text, and what stands in front of it and behind it is
    kept as it is. *)
Definition rewrites_first_only (formula out : string) : Prop :=
  forall pre m suf,
    regex_search gPattern formula = Some (pre, m, suf) ->
    exists r, out = (pre ++ r ++ suf)%string.

(** [Rewritten fmt prev s out]: reading [s] from the left, with [prev] the
    character in front of it, every occurrence of the shape is replaced by
    [fmt] and every character at which no occurrence starts is kept. *)
Inductive Rewritten (fmt : string) : option ascii -> string -> string -> Prop :=
| Rw_end prev : Rewritten fmt prev "" ""
| Rw_keep prev c s out :
    (forall m r, String c s = (m ++ r)%string -> ~ Matches gPattern prev m r) ->
    Rewritten fmt (Some c) s out ->
    Rewritten fmt prev (String c s) (String c out)
| Rw_hit prev m r out :
    m <> "" ->
    Matches gPattern prev m r ->
    Rewritten fmt (last_char prev m) r out ->
    Rewritten fmt prev (m ++ r) (fmt ++ out).

(** The partition points of the example signal. *)
Definition points (l : list Z) : ZS.t := fold_right ZS.add ZS.empty l.

Definition example_points : ZS.t := points [5; 8; 10; 15; 20]%Z.

(** A formula with two occurrences of the shape. *)
Definition two_occurrences : string :=
  "G [0, 5] ((p2) U (p3)) and G [0, 9] ((p2) U (p3))".

(** An input whose formula has the shape with a bound without any digit. *)
Definition dot_bound_input : string :=
  "G [., 5] ((p2) U (p3))" ++ endl ++ "out" ++ endl.

(** Conjuncts over the given intervals, joined by the conjunction sign. *)
Fixpoint joined (intervals : list (Z * Z)) : string :=
  match intervals with
  | [] => ""
  | [(lo, hi)] => conjunct lo hi
  | (lo, hi) :: rest => conjunct lo hi ++ wedge ++ joined rest
  end.

(** The conjunction sign is the three bytes of U+2227 and a space. *)
Definition wedge_bytes : list nat := [226; 136; 167; 32].

(** The whole run of the signal steps of [main]. *)
Definition partition_points_of_signal (fuel : nat) (T : double) : result (list Z) :=
  signal <- synthesizeSignal fuel T ;;
  partitionPoints <- constructStablePartitions signal ;;
  Ok (ZS.elements partitionPoints).

(* ------------------------------------------------------------------ *)
(** * What the renamer is said to do *)

(** The reading of the specification: the names follow the order in which
    the map lists its entries, the first entry being named [p1]. *)
Definition names_follow_iteration_order (stlFormula : string) : Prop :=
  forall i key name,
    nth_error (SM.elements (build_map (extractAtomicPropositions stlFormula))) i
      = Some (key, name) ->
    name = boolean_name i.

(** [text] occurs in [s]. *)
Definition occurs (text s : string) : Prop :=
  exists pre post, s = (pre ++ text ++ post)%string.

(** A text whose characters are periods or characters without a meaning of
    their own in a pattern. *)
Definition plain_char (c : ascii) : bool := Ascii.eqb c "." || negb (is_meta c).

Definition plain (s : string) : bool := all plain_char s.

(** The pieces [key_items] builds for a plain text. *)
Fixpoint items_of (key : string) : regex :=
  match key with
  | EmptyString => []
  | String c key' =>
      One (if Ascii.eqb c "." then any_char else is_char c) :: items_of key'
  end.

(** [text] is [key] up to the characters standing where [key] has a period,
    which are anything but line terminators. *)
Fixpoint agree (key text : string) : bool :=
  match key, text with
  | EmptyString, EmptyString => true
  | String a key', String b text' =>
      (if Ascii.eqb a "." then any_char b else Ascii.eqb b a) && agree key' text'
  | _, _ => false
  end.

Definition carriage_return : ascii := ascii_of_nat 13.

(** The reading of the specification, for one character [c]: whatever the
    map entry whose proposition text has a period, the text with [c] in the
    place of that period is matched by the entry's pattern: in some formula
    that starts with it the text is replaced by the entry's name, what
    follows it being kept. *)
Definition period_matches (c : ascii) : Prop :=
  forall pre post name,
    is_prop (pre ++ String "." post) ->
    contains_char "$" name = false ->
    exists tail,
      rename_step (pre ++ String c (post ++ tail)) (pre ++ String "." post, name)
      = Ok (name ++ tail).

(* ------------------------------------------------------------------ *)
(** * The written bounds, and the shape of the replacement *)

(** [s] is written as a decimal numeral: the digits [ip], a period and the
    digits [fp], or the digits [ip] alone.  The written number is
    [ip + fp / 10^|fp|]; truncated toward zero it is the value of [ip]. *)
Definition numeral (s ip fp : string) : Prop :=
  all is_digit ip = true /\ all is_digit fp = true /\ ip ++ fp <> "" /\
  (s = ip ++ "." ++ fp \/ (s = ip /\ fp = "")).

(** The reading of the specification: whenever the bounds of the first
    occurrence are numerals that are not integers, the partitioner computes
    the sub-intervals from the written numbers truncated toward zero. *)
Definition truncates_the_written_bounds (formula : string)
  (partitionPoints : ZS.t) : Prop :=
  forall pre m suf ip1 fp1 ip2 fp2,
    regex_search gPattern formula = Some (pre, m, suf) ->
    numeral (nth 0 (subs m) "") ip1 fp1 -> decimal 0 fp1 <> 0%Z ->
    numeral (nth 1 (subs m) "") ip2 fp2 -> decimal 0 fp2 <> 0%Z ->
    partitionTemporalOperators formula partitionPoints
    = (fmt <- build_replacement partitionPoints (decimal 0 ip1) (decimal 0 ip2) ;;
       regex_replace formula gPattern fmt).

(** A non-empty run of decimal digits. *)
Definition integer_numeral (s : string) : Prop :=
  s <> "" /\ all is_digit s = true.

(** A text made of conjuncts [G [lo, hi] ((p2) U (p3)) ] whose bounds are
    integer numerals, each possibly followed by the conjunction sign. *)
Inductive Conjuncts : string -> Prop :=
| Cj_nil : Conjuncts ""
| Cj_snoc r lo hi sep :
    Conjuncts r -> integer_numeral lo -> integer_numeral hi ->
    sep = "" \/ sep = wedge ->
    Conjuncts (r ++ ("G [" ++ lo ++ ", " ++ hi ++ "] ((p2) U (p3)) ") ++ sep).

(* ------------------------------------------------------------------ *)
(** * The abnormal ends of the program *)

(** An exception the program throws, or undefined behaviour; the other two
    faults belong to the embedding. *)
Definition thrown_or_undefined (f : fault) : Prop :=
  f = invalid_argument \/ f = out_of_range \/ f = undefined.

(* ------------------------------------------------------------------ *)
(** * The sub-intervals of the partitioner *)

(** [Chain lo hi ivs]: the intervals [ivs] are non-empty, each starts one
    above the end of the one before, the first starts at [lo] and the last
    ends at [hi]. *)
Inductive Chain : Z -> Z -> list (Z * Z) -> Prop :=
| Chain_last lo hi : (lo <= hi)%Z -> Chain lo hi [(lo, hi)]
| Chain_cut lo t hi rest :
    (lo <= t)%Z -> (t < hi)%Z -> Chain (t + 1) hi rest ->
    Chain lo hi ((lo, t) :: rest).

(** The partition points from [a] on and below [b], in increasing order. *)
Definition cuts (a b : Z) (partitionPoints : ZS.t) : list Z :=
  filter (fun t => (a <=? t)%Z && (t <? b)%Z) (ZS.elements partitionPoints).

(* ------------------------------------------------------------------ *)
(** * The changes of a signal *)

(** The truth values change between the samples [i] and [i + 1] of the
    signal, and [p] is the time of the later one, rounded. *)
Definition change_at (signal : list sample) (i : nat) (p : Z) : Prop :=
  exists before here,
    nth_error signal i = Some before /\
    nth_error signal (S i) = Some here /\
    snd here <> snd before /\
    to_int (round (fst here)) = Ok p.

(* ------------------------------------------------------------------ *)
(** * What one substitution of the renamer does *)

(** The text [m], followed by [r] and with [prev] in front of it, agrees
    with [key] and stands between two word boundaries. *)
Definition word_here (key : string) (prev : option ascii) (m r : string) : Prop :=
  agree key m = true /\
  word_boundary prev (m ++ r) = true /\
  word_boundary (last_char prev m) r = true.

(** [Renamed key name prev s out]: reading [s] from the left, every text that
    agrees with [key] and stands between word boundaries is replaced by
    [name], and every character at which no such text starts is kept. *)
Inductive Renamed (key name : string) : option ascii -> string -> string -> Prop :=
| Rn_end prev : Renamed key name prev "" ""
| Rn_keep prev c s out :
    (forall m r, String c s = (m ++ r)%string -> ~ word_here key prev m r) ->
    Renamed key name (Some c) s out ->
    Renamed key name prev (String c s) (String c out)
| Rn_hit prev m r out :
    word_here key prev m r ->
    Renamed key name (last_char prev m) r out ->
    Renamed key name prev (m ++ r) (name ++ out).

(* ------------------------------------------------------------------ *)
(** * Further notions used in the statements *)

(** The last character of [s] is a period. *)
Definition ends_in_period (s : string) : bool :=
  match last_char None s with
  | Some c => Ascii.eqb c "."
  | None => false
  end.

(** The text [main] reads as the formula, and the word it reads as the file
    name. *)
Definition formula_read (stdin : string) : string := fst (getline stdin).
Definition filename_read (stdin : string) : string := read_word (snd (getline stdin)).

(** The time of the sample with index [i]: [i] additions of [0.1] to 0. *)
Definition time_of (i : nat) : double :=
  Nat.iter i (fun t => add t tenth) (of_int 0).

(** A change of truth values at index [S i] whose rounded time is not an
    [int]. *)
Definition change_beyond_int (signal : list sample) (i : nat) : Prop :=
  exists before here,
    nth_error signal i = Some before /\
    nth_error signal (S i) = Some here /\
    snd here <> snd before /\
    to_int (round (fst here)) = Fail undefined.

(* ================================================================== *)
(** * Facts on strings *)

Module StrFacts.

Lemma app_assoc (a b c : string) : ((a ++ b) ++ c = a ++ (b ++ c))%string.
Proof. induction a as [|x a IH]; simpl; [reflexivity | now rewrite IH]. Qed.

Lemma app_nil_r (a : string) : (a ++ "" = a)%string.
Proof. induction a as [|x a IH]; simpl; [reflexivity | now rewrite IH]. Qed.

Lemma length_app (a b : string) :
  String.length (a ++ b) = String.length a + String.length b.
Proof. induction a as [|x a IH]; simpl; [reflexivity | now rewrite IH]. Qed.

Lemma length_zero (a : string) : String.length a = 0 -> a = "".
Proof. destruct a; [reflexivity | discriminate]. Qed.

Lemma app_inv_head (a b c : string) : (a ++ b = a ++ c)%string -> b = c.
Proof. induction a as [|x a IH]; simpl; intros H; [assumption | injection H; auto]. Qed.

Lemma take_app (m r : string) : take (String.length m) (m ++ r) = m.
Proof. induction m as [|x m IH]; simpl; [now destruct r | now rewrite IH]. Qed.

Lemma consumed_app (m r : string) : consumed (m ++ r) r = m.
Proof.
  unfold consumed. rewrite length_app.
  replace (String.length m + String.length r - String.length r)
    with (String.length m) by lia.
  apply take_app.
Qed.

Lemma last_char_app (prev : option ascii) (a b : string) :
  last_char prev (a ++ b) = last_char (last_char prev a) b.
Proof. revert prev; induction a as [|x a IH]; simpl; intros; [reflexivity | apply IH]. Qed.

Lemma all_app (p : ascii -> bool) (a b : string) :
  all p (a ++ b) = all p a && all p b.
Proof.
  induction a as [|x a IH]; simpl; [reflexivity |].
  rewrite IH. now rewrite andb_assoc.
Qed.

(** The characters at the front of [s] that satisfy [p], and what follows. *)
Lemma take_drop_while (p : ascii -> bool) (s : string) :
  (take_while p s ++ drop_while p s)%string = s.
Proof.
  induction s as [|c s IH]; simpl; [reflexivity |].
  destruct (p c); simpl; [now rewrite IH | reflexivity].
Qed.

Lemma all_take_while (p : ascii -> bool) (s : string) : all p (take_while p s) = true.
Proof.
  induction s as [|c s IH]; simpl; [reflexivity |].
  destruct (p c) eqn:E; simpl; [now rewrite E | reflexivity].
Qed.

Lemma stops_drop_while (p : ascii -> bool) (s : string) : stops p (drop_while p s).
Proof.
  induction s as [|c s IH]; simpl; [exact I |].
  destruct (p c) eqn:E; simpl; [exact IH | exact E].
Qed.

(** A run of [p]-characters followed by something that stops it is the
    whole run. *)
Lemma span_unique (p : ascii -> bool) (u u' a a' : string) :
  (u ++ a = u' ++ a')%string -> all p u = true -> all p u' = true ->
  stops p a -> stops p a' -> u = u' /\ a = a'.
Proof.
  revert u'. induction u as [|c u IH]; intros [|c' u']; simpl; intros E Hu Hu' Ha Ha'.
  - auto.
  - subst a. simpl in Ha. apply andb_true_iff in Hu'. destruct Hu'; congruence.
  - subst a'. simpl in Ha'. apply andb_true_iff in Hu. destruct Hu; congruence.
  - injection E as -> E. apply andb_true_iff in Hu, Hu'.
    destruct (IH u' E) as [-> ->]; tauto.
Qed.

(** A run of [p]-characters is no longer than the whole run. *)
Lemma span_longest (p : ascii -> bool) (u u' a a' : string) :
  (u ++ a = u' ++ a')%string -> all p u = true -> all p u' = true ->
  stops p a -> String.length u' <= String.length u.
Proof.
  revert u'. induction u as [|c u IH]; intros [|c' u']; simpl; intros E Hu Hu' Ha.
  - lia.
  - subst a. simpl in Ha. apply andb_true_iff in Hu'. destruct Hu'; congruence.
  - lia.
  - injection E as -> E. apply andb_true_iff in Hu, Hu'.
    apply le_n_S, (IH u' E); tauto.
Qed.

Lemma starts_with_spec (p s : string) :
  starts_with p s = true <-> exists r, s = (p ++ r)%string.
Proof.
  revert s. induction p as [|a p IH]; intros s; simpl.
  - split; [intros _; now exists s | reflexivity].
  - destruct s as [|b s].
    + split; [discriminate | intros [r H]; discriminate].
    + rewrite andb_true_iff, Ascii.eqb_eq, IH. split.
      * intros [-> [r ->]]. now exists r.
      * intros [r H]. injection H as -> ->. split; [reflexivity | now exists r].
Qed.

(** [find] answers [npos] exactly when the text has no occurrence. *)
Lemma find_none (p s : string) :
  find p s = None <-> ~ exists pre post, s = (pre ++ p ++ post)%string.
Proof.
  induction s as [|c s IH]; simpl.
  - destruct (starts_with p "") eqn:E.
    + split; [discriminate |]. intros H; exfalso; apply H.
      apply starts_with_spec in E. destruct E as [r E]. now exists "", r.
    + split; [| reflexivity]. intros _ [pre [post H]].
      destruct pre; simpl in H; [| discriminate].
      assert (starts_with p "" = true) by (apply starts_with_spec; now exists post).
      congruence.
  - destruct (starts_with p (String c s)) eqn:E.
    + split; [discriminate |]. intros H; exfalso; apply H.
      apply starts_with_spec in E. destruct E as [r E]. now exists "", r.
    + destruct (find p s) eqn:F; simpl.
      * split; [discriminate |]. intros H; exfalso.
        assert (G : ~ ~ exists pre post, s = (pre ++ p ++ post)%string).
        { intros G. apply IH in G. discriminate. }
        apply G. intros [pre [post ->]]. apply H. now exists (String c pre), post.
      * split; [| reflexivity]. intros _ [pre [post H]].
        destruct pre as [|c' pre]; simpl in H.
        -- assert (starts_with p (String c s) = true)
             by (apply starts_with_spec; now exists post).
           congruence.
        -- injection H as _ H. apply (proj1 IH eq_refl). now exists pre, post.
Qed.

Lemma drop_app (a b : string) : drop (String.length a) (a ++ b) = b.
Proof. induction a as [|x a IH]; simpl; [now destruct b | exact IH]. Qed.

Lemma ends_with_app (a b : string) : ends_with b (a ++ b) = true.
Proof.
  unfold ends_with. rewrite length_app.
  replace (String.length a + String.length b - String.length b)
    with (String.length a) by lia.
  rewrite drop_app. apply String.eqb_refl.
Qed.

Lemma consumed_nil (s : string) : consumed s "" = s.
Proof. rewrite <- (app_nil_r s) at 1. now rewrite consumed_app. Qed.

Lemma all_impl (p q : ascii -> bool) s :
  (forall c, p c = true -> q c = true) -> all p s = true -> all q s = true.
Proof.
  intros I. induction s as [|c s IH]; simpl; [reflexivity |].
  rewrite !andb_true_iff. intros [Hc Hs]. auto.
Qed.

Lemma contains_char_app c a b :
  contains_char c (a ++ b) = contains_char c a || contains_char c b.
Proof. unfold contains_char. rewrite all_app. apply negb_andb. Qed.

Lemma app_same_length (a b a' b' : string) :
  (a ++ b = a' ++ b')%string -> String.length a = String.length a' ->
  a = a' /\ b = b'.
Proof.
  revert a'. induction a as [|x a IH]; intros [|x' a']; simpl; intros E L;
    try discriminate; [auto |].
  injection E as -> E. injection L as L. destruct (IH a' E L) as [-> ->]. auto.
Qed.

End StrFacts.

(* ================================================================== *)
(** * Facts on the engine *)

Module RegexFacts.

Import StrFacts.

Lemma MatchItem_min it prev m rest :
  MatchItem it prev m rest -> item_min it <= String.length m.
Proof. induction 1; simpl; lia. Qed.

Lemma Matches_min re prev m rest :
  Matches re prev m rest -> min_len re <= String.length m.
Proof.
  unfold min_len.
  induction 1 as [|it re prev m1 m2 rest H1 _ IH]; simpl; [lia |].
  apply MatchItem_min in H1. rewrite length_app. lia.
Qed.

Section Sound.

Context {R : Type}.
Implicit Types (k : @cont R) (r : R).

(** When the greedy repetition fails, the continuation has refused every
    run of [p]-characters. *)
Lemma rep_none p k : forall s prev caps,
  rep p k prev s caps = None ->
  forall m rest, s = (m ++ rest)%string -> all p m = true ->
    k (last_char prev m) rest caps = None.
Proof.
  induction s as [|c s IH]; intros prev caps H m rest E Hm; simpl in H.
  - destruct m; simpl in E; [subst rest; exact H | discriminate].
  - destruct (p c) eqn:Pc.
    + destruct (rep p k (Some c) s caps) eqn:Hr; [discriminate |].
      destruct m as [|c' m]; simpl in *; [subst rest; exact H |].
      injection E as <- E. apply andb_true_iff in Hm.
      apply (IH _ _ Hr _ _ E). tauto.
    + destruct m as [|c' m]; simpl in *; [subst rest; exact H |].
      injection E as <- E. rewrite Pc in Hm. discriminate.
Qed.

(** What the greedy repetition returns comes from the continuation after
    some run of [p]-characters, and the continuation refused every longer
    run. *)
Lemma rep_sound p k : forall s prev caps r,
  rep p k prev s caps = Some r ->
  exists m rest,
    s = (m ++ rest)%string /\ all p m = true /\
    k (last_char prev m) rest caps = Some r /\
    forall m' rest', s = (m' ++ rest')%string -> all p m' = true ->
      String.length m < String.length m' ->
      k (last_char prev m') rest' caps = None.
Proof.
  induction s as [|c s IH]; intros prev caps r H; simpl in H.
  - exists "", "". repeat split; auto.
    intros [|c' m'] rest' E _ L; simpl in *; [lia | discriminate].
  - destruct (p c) eqn:Pc.
    + destruct (rep p k (Some c) s caps) as [r'|] eqn:Hr.
      * injection H as ->.
        destruct (IH _ _ _ Hr) as (m & rest & -> & Hm & Hk & Hmax).
        exists (String c m), rest. simpl. rewrite Pc, Hm. repeat split; auto.
        intros [|c' m'] rest' E A L; simpl in *; [lia |].
        injection E as <- E. apply andb_true_iff in A.
        apply (Hmax m' rest' E); [tauto | lia].
      * exists "", (String c s). repeat split; auto.
        intros [|c' m'] rest' E A L; simpl in *; [lia |].
        injection E as <- E. apply andb_true_iff in A.
        apply (rep_none _ _ _ _ _ Hr _ _ E). tauto.
    + exists "", (String c s). repeat split; auto.
      intros [|c' m'] rest' E A L; simpl in *; [lia |].
      injection E as <- E. rewrite Pc in A. discriminate.
Qed.

Lemma atom_sound p k prev s caps r :
  atom p k prev s caps = Some r ->
  exists c s', s = String c s' /\ p c = true /\ k (Some c) s' caps = Some r.
Proof.
  unfold atom. destruct s as [|c s']; [discriminate |].
  destruct (p c) eqn:Pc; [| discriminate]. intros H. now exists c, s'.
Qed.

Lemma item_run_sound it : forall k prev s caps r,
  item_run it k prev s caps = Some r ->
  exists m rest caps',
    s = (m ++ rest)%string /\ MatchItem it prev m rest /\
    k (last_char prev m) rest caps' = Some r.
Proof.
  induction it as [p|p|p|p| |it IH]; intros k prev s caps r H; simpl in H.
  - apply atom_sound in H. destruct H as (c & s' & -> & Pc & Hk).
    exists (String c ""), s', caps. repeat split; [now constructor | exact Hk].
  - destruct (atom p k prev s caps) as [r'|] eqn:Ha.
    + injection H as ->. apply atom_sound in Ha. destruct Ha as (c & s' & -> & Pc & Hk).
      exists (String c ""), s', caps. repeat split; [now constructor | exact Hk].
    + exists "", s, caps. repeat split; [constructor | exact H].
  - apply rep_sound in H. destruct H as (m & rest & -> & Hm & Hk & _).
    exists m, rest, caps. repeat split; [now constructor | exact Hk].
  - apply atom_sound in H. destruct H as (c & s' & -> & Pc & Hk).
    apply rep_sound in Hk. destruct Hk as (m & rest & -> & Hm & Hk & _).
    exists (String c m), rest, caps. repeat split; [now constructor | exact Hk].
  - destruct (word_boundary prev s) eqn:B; [| discriminate].
    exists "", s, caps. repeat split; [now constructor | exact H].
  - apply IH in H. destruct H as (m & rest & caps' & -> & Hm & Hk).
    exists m, rest, (caps' ++ [consumed (m ++ rest) rest])%list.
    repeat split; [now constructor | exact Hk].
Qed.

Lemma run_sound re : forall k prev s caps r,
  run re k prev s caps = Some r ->
  exists m rest caps',
    s = (m ++ rest)%string /\ Matches re prev m rest /\
    k (last_char prev m) rest caps' = Some r.
Proof.
  induction re as [|it re IH]; intros k prev s caps r H; simpl in H.
  - exists "", s, caps. repeat split; [constructor | exact H].
  - apply item_run_sound in H. destruct H as (m1 & rest1 & caps1 & -> & H1 & H).
    apply IH in H. destruct H as (m2 & rest & caps2 & -> & H2 & H).
    exists (m1 ++ m2)%string, rest, caps2.
    rewrite app_assoc, last_char_app. repeat split; [now constructor | exact H].
Qed.

Lemma rep_complete p k : forall m prev rest,
  all p m = true -> accepts k (last_char prev m) rest ->
  accepts (rep p k) prev (m ++ rest)%string.
Proof.
  induction m as [|c m IH]; intros prev rest Hm Hk caps; simpl in *.
  - destruct rest as [|c rest]; simpl; [apply Hk |].
    destruct (p c); [| apply Hk].
    destruct (rep p k (Some c) rest caps); [discriminate | apply Hk].
  - apply andb_true_iff in Hm. destruct Hm as [Pc Hm]. rewrite Pc.
    specialize (IH (Some c) rest Hm Hk caps).
    destruct (rep p k (Some c) (m ++ rest) caps); [discriminate | contradiction].
Qed.

Lemma item_run_complete it : forall k prev m rest,
  MatchItem it prev m rest -> accepts k (last_char prev m) rest ->
  accepts (item_run it k) prev (m ++ rest)%string.
Proof.
  intros k prev m rest H. revert k.
  induction H as [p prev c rest Pc|p prev c rest Pc|p prev rest|p prev m rest Hm
                 |p prev c m rest Pc Hm|prev rest B|it prev m rest H IH];
    intros k Hk caps; simpl in *.
  - rewrite Pc. apply Hk.
  - rewrite Pc. specialize (Hk caps). destruct (k (Some c) rest caps); [discriminate | contradiction].
  - specialize (Hk caps). destruct (atom p k prev rest caps); [discriminate | exact Hk].
  - now apply rep_complete.
  - rewrite Pc. now apply rep_complete.
  - rewrite B. apply Hk.
  - apply IH. intros caps'. apply Hk.
Qed.

Lemma run_complete re prev m rest :
  Matches re prev m rest -> forall k,
  accepts k (last_char prev m) rest -> accepts (run re k) prev (m ++ rest)%string.
Proof.
  induction 1 as [|it re prev m1 m2 rest H1 H2 IH]; intros k Hk; simpl.
  - exact Hk.
  - rewrite app_assoc. apply item_run_complete; [exact H1 |].
    apply IH. now rewrite <- last_char_app.
Qed.

End Sound.

(** ** One attempt *)

Lemma match_at_sound b re prev s m rest :
  match_at b re prev s = Some (m, rest) ->
  s = (whole m ++ rest)%string /\ Matches re prev (whole m) rest.
Proof.
  unfold match_at. intros H. apply run_sound in H.
  destruct H as (m0 & rest0 & caps' & -> & HM & Hk).
  destruct (b && _); [discriminate |].
  injection Hk as <- <-. simpl. rewrite consumed_app. auto.
Qed.

Lemma match_at_complete re prev m rest :
  Matches re prev m rest -> match_at false re prev (m ++ rest) <> None.
Proof.
  intros H. unfold match_at.
  apply (run_complete _ _ _ _ H). intros caps. simpl. discriminate.
Qed.

Lemma match_at_nonempty b re prev s m rest :
  0 < min_len re -> match_at b re prev s = Some (m, rest) ->
  exists c m', whole m = String c m'.
Proof.
  intros L H. apply match_at_sound in H. destruct H as [_ H].
  apply Matches_min in H. destruct (whole m) as [|c m']; simpl in H; [lia |].
  now exists c, m'.
Qed.

(** ** The iterator *)

Lemma scan_skip re : forall m prev r,
  scan re prev (m ++ r) (String.length m) = scan re (last_char prev m) r 0.
Proof.
  induction m as [|c m IH]; intros prev r; [reflexivity |].
  simpl String.length. simpl append. simpl last_char. rewrite <- IH.
  reflexivity.
Qed.

(** For a pattern that takes at least one character, the iterator tries
    the position it stands at, passes over a match, and otherwise moves one
    character on. *)
Lemma scan_unfold re prev s :
  0 < min_len re ->
  scan re prev s 0 =
  match match_at false re prev s with
  | Some (m, rest) => Hit m :: scan re (last_char prev (whole m)) rest 0
  | None =>
      match s with
      | EmptyString => []
      | String c s' => Lit c :: scan re (Some c) s' 0
      end
  end.
Proof.
  intros L. destruct s as [|c s]; simpl scan at 1.
  - destruct (match_at false re prev "") as [[m rest]|] eqn:H; [| reflexivity].
    destruct (match_at_nonempty _ _ _ _ _ _ L H) as (c & m' & E).
    apply match_at_sound in H. destruct H as [H _]. rewrite E in H. discriminate.
  - destruct (match_at false re prev (String c s)) as [[m rest]|] eqn:H; [| reflexivity].
    destruct (match_at_nonempty _ _ _ _ _ _ L H) as (c' & m' & E).
    apply match_at_sound in H. destruct H as [H _]. rewrite E in *.
    simpl in H. injection H as <- ->. simpl String.length. simpl last_char.
    cbv iota. now rewrite scan_skip.
Qed.

(** [std::regex_search] finds nothing exactly when the iterator sees
    characters only. *)
Lemma regex_search_none re : forall s prev fmt,
  0 < min_len re -> regex_search_from re prev s = None ->
  substitute fmt (scan re prev s 0) = s.
Proof.
  induction s as [|c s IH]; intros prev fmt L H;
    rewrite (scan_unfold _ _ _ L); simpl in H;
    destruct (match_at false re prev _) as [[m rest]|]; try discriminate.
  - reflexivity.
  - simpl. rewrite IH; auto.
    destruct (regex_search_from re (Some c) s) as [[[? ?] ?]|]; [discriminate | reflexivity].
Qed.

Lemma match_at_empty b re prev :
  0 < min_len re -> match_at b re prev "" = None.
Proof.
  intros L. destruct (match_at b re prev "") as [[m rest]|] eqn:H; [| reflexivity].
  destruct (match_at_nonempty _ _ _ _ _ _ L H) as (c & m' & E).
  apply match_at_sound in H. destruct H as [H _]. rewrite E in H. discriminate.
Qed.

Lemma scan_empty re prev : 0 < min_len re -> scan re prev "" 0 = [].
Proof. intros L. rewrite (scan_unfold _ _ _ L). now rewrite match_at_empty. Qed.

Lemma min_len_app (re1 re2 : regex) :
  min_len (re1 ++ re2)%list = min_len re1 + min_len re2.
Proof. unfold min_len. now rewrite map_app, list_sum_app. Qed.

(** A text shorter than every match holds no match. *)
Lemma match_at_short b re prev s :
  String.length s < min_len re -> match_at b re prev s = None.
Proof.
  intros L. destruct (match_at b re prev s) as [[m rest]|] eqn:H; [| reflexivity].
  apply match_at_sound in H. destruct H as [-> H].
  apply Matches_min in H. rewrite length_app in L. lia.
Qed.

Lemma substitute_short re fmt : forall s prev,
  String.length s < min_len re -> substitute fmt (scan re prev s 0) = s.
Proof.
  induction s as [|c s IH]; intros prev L;
    rewrite scan_unfold by lia; rewrite (match_at_short _ _ _ _ L).
  - reflexivity.
  - simpl. rewrite IH; [reflexivity | simpl in L; lia].
Qed.

End RegexFacts.

(* ================================================================== *)
(** * The proposition extractor *)

Module Extractor.

Import StrFacts RegexFacts.

(** ** The character classes are disjoint where the pattern needs it *)

Ltac by_cases c :=
  destruct c as [[] [] [] [] [] [] [] []]; vm_compute; intros; congruence.

Lemma space_not_word c : is_space c = true -> is_word c = false.
Proof. by_cases c. Qed.

Lemma angle_not_word c : is_angle c = true -> is_word c = false.
Proof. by_cases c. Qed.

Lemma angle_not_space c : is_angle c = true -> is_space c = false.
Proof. by_cases c. Qed.

Lemma number_not_space c : is_digit_or_dot c = true -> is_space c = false.
Proof. by_cases c. Qed.

Lemma space_not_equals c : is_space c = true -> c <> "="%char.
Proof. by_cases c. Qed.

Lemma number_not_equals c : is_digit_or_dot c = true -> c <> "="%char.
Proof. by_cases c. Qed.

Lemma is_char_eq a c : is_char a c = true <-> c = a.
Proof. unfold is_char. apply Ascii.eqb_eq. Qed.

(** A run of [q]-characters in front of a text that stops [p] stops [p]
    when no [q]-character satisfies [p]. *)
Lemma stops_app (p q : ascii -> bool) (a b : string) :
  (forall c, q c = true -> p c = false) ->
  all q a = true -> stops p b -> stops p (a ++ b).
Proof.
  intros D Ha Hb. destruct a as [|c a]; simpl in *; [exact Hb |].
  apply andb_true_iff in Ha. apply D. tauto.
Qed.

Lemma stops_nonempty (p q : ascii -> bool) (a b : string) :
  (forall c, q c = true -> p c = false) ->
  all q a = true -> a <> "" -> stops p (a ++ b).
Proof.
  intros D Ha Hn. destruct a as [|c a]; simpl in *; [congruence |].
  apply andb_true_iff in Ha. apply D. tauto.
Qed.

(** ** Inversion of the matching relation *)

Lemma Matches_cons_inv it re prev m rest :
  Matches (it :: re) prev m rest ->
  exists m1 m2, m = (m1 ++ m2)%string /\ MatchItem it prev m1 (m2 ++ rest) /\
                Matches re (last_char prev m1) m2 rest.
Proof. inversion 1; subst. eauto. Qed.

Lemma Matches_nil_inv prev m rest : Matches [] prev m rest -> m = "".
Proof. now inversion 1. Qed.

Lemma MatchItem_one_inv p prev m rest :
  MatchItem (One p) prev m rest -> exists c, m = String c "" /\ p c = true.
Proof. inversion 1; subst. eauto. Qed.

Lemma MatchItem_opt_inv p prev m rest :
  MatchItem (Opt p) prev m rest -> m = "" \/ exists c, m = String c "" /\ p c = true.
Proof. inversion 1; subst; eauto. Qed.

Lemma MatchItem_star_inv p prev m rest :
  MatchItem (Star p) prev m rest -> all p m = true.
Proof. now inversion 1. Qed.

Lemma MatchItem_plus_inv p prev m rest :
  MatchItem (Plus p) prev m rest -> m <> "" /\ all p m = true.
Proof.
  inversion 1 as [| | | |? ? c m' ? Pc Hm| |]; subst.
  split; [discriminate | simpl; now rewrite Pc, Hm].
Qed.

Lemma prop_head_inv prev m rest :
  Matches prop_head prev m rest ->
  exists w s1 o e s2,
    m = (w ++ s1 ++ String o (e ++ s2))%string /\
    w <> "" /\ all is_word w = true /\ all is_space s1 = true /\
    is_angle o = true /\ (e = "" \/ e = "=") /\ all is_space s2 = true.
Proof.
  unfold prop_head. intros H.
  apply Matches_cons_inv in H. destruct H as (w & t1 & -> & Hw & H).
  apply Matches_cons_inv in H. destruct H as (s1 & t2 & -> & Hs1 & H).
  apply Matches_cons_inv in H. destruct H as (o & t3 & -> & Ho & H).
  apply Matches_cons_inv in H. destruct H as (e & t4 & -> & He & H).
  apply Matches_cons_inv in H. destruct H as (s2 & t5 & -> & Hs2 & H).
  apply Matches_nil_inv in H. subst t5.
  apply MatchItem_plus_inv in Hw. destruct Hw as [Hw1 Hw2].
  apply MatchItem_star_inv in Hs1.
  apply MatchItem_one_inv in Ho. destruct Ho as (c & -> & Hc).
  apply MatchItem_opt_inv in He.
  apply MatchItem_star_inv in Hs2.
  exists w, s1, c, e, s2. rewrite app_nil_r. simpl.
  repeat split; auto.
  destruct He as [-> | (c' & -> & Hc')]; [now left | right].
  apply is_char_eq in Hc'. now subst c'.
Qed.

Lemma is_prop_Matches prev m rest : is_prop m -> Matches propPattern prev m rest.
Proof.
  intros (w & s1 & o & e & s2 & n & -> & Hw1 & Hw2 & Hs1 & Ho & He & Hs2 & Hn1 & Hn2).
  unfold propPattern.
  replace (w ++ s1 ++ String o (e ++ s2 ++ n))%string
    with (w ++ s1 ++ String o "" ++ e ++ s2 ++ n ++ "")%string
    by (simpl; now rewrite app_nil_r).
  constructor.
  { destruct w as [|c w]; [congruence |]. simpl in Hw2.
    apply andb_true_iff in Hw2. now constructor. }
  constructor; [now constructor |].
  constructor; [now constructor |].
  constructor.
  { destruct He as [-> | ->]; constructor. apply is_char_eq. reflexivity. }
  constructor; [now constructor |].
  constructor; [| constructor].
  destruct n as [|c n]; [congruence |]. simpl in Hn2.
  apply andb_true_iff in Hn2. now constructor.
Qed.

(** ** One attempt of the extractor's pattern *)

Lemma prop_match_some prev s m rest :
  match_at false propPattern prev s = Some (m, rest) ->
  s = (whole m ++ rest)%string /\ is_prop (whole m) /\ stops is_digit_or_dot rest.
Proof.
  unfold match_at.
  change (run propPattern ?k) with (run prop_head (atom is_digit_or_dot (rep is_digit_or_dot k))).
  intros H. apply run_sound in H. destruct H as (m1 & rest1 & caps1 & -> & H1 & H).
  apply atom_sound in H. destruct H as (c & s' & -> & Pc & H).
  apply rep_sound in H. destruct H as (m3 & rest3 & -> & Hm3 & Hk & Hmax).
  simpl in Hk. injection Hk as <- <-. simpl whole.
  replace (m1 ++ String c (m3 ++ rest3))%string
    with ((m1 ++ String c m3) ++ rest3)%string by (now rewrite app_assoc).
  rewrite consumed_app. split; [reflexivity |]. split.
  - apply prop_head_inv in H1.
    destruct H1 as (w & s1 & o & e & s2 & -> & Hw1 & Hw2 & Hs1 & Ho & He & Hs2).
    exists w, s1, o, e, s2, (String c m3).
    repeat split; auto; try discriminate.
    + rewrite !app_assoc. simpl. now rewrite !app_assoc.
    + simpl. now rewrite Pc, Hm3.
  - destruct rest3 as [|d rest3]; simpl; [exact I |].
    destruct (is_digit_or_dot d) eqn:Pd; [| reflexivity].
    specialize (Hmax (m3 ++ String d "")%string rest3).
    rewrite app_assoc in Hmax. simpl in Hmax.
    rewrite all_app, length_app in Hmax. simpl in Hmax. rewrite Hm3, Pd in Hmax.
    discriminate Hmax; auto; lia.
Qed.

Lemma prop_match_none prev s :
  match_at false propPattern prev s = None ->
  forall m r, s = (m ++ r)%string -> ~ is_prop m.
Proof.
  intros H m r -> Hm. revert H. apply match_at_complete.
  now apply is_prop_Matches.
Qed.

(** ** A proposition followed by no further digit or period is the longest
    one that starts at its position *)

Lemma is_prop_longest m r m' r' :
  is_prop m -> stops is_digit_or_dot r -> is_prop m' ->
  (m ++ r = m' ++ r')%string -> String.length m' <= String.length m.
Proof.
  intros (w & s1 & o & e & s2 & n & -> & Hw1 & Hw2 & Hs1 & Ho & He & Hs2 & Hn1 & Hn2) Hr
         (w' & s1' & o' & e' & s2' & n' & -> & Hw1' & Hw2' & Hs1' & Ho' & He' & Hs2' & Hn1' & Hn2') E.
  rewrite !app_assoc in E. simpl in E. rewrite !app_assoc in E.
  (* the word *)
  apply span_unique with (p := is_word) in E; auto;
    try (apply stops_app with (q := is_space); auto using space_not_word;
         simpl; now apply angle_not_word).
  destruct E as [<- E].
  (* the white space and the operator *)
  apply span_unique with (p := is_space) in E; auto;
    try (simpl; now apply angle_not_space).
  destruct E as [<- E]. injection E as <- E.
  (* the optional equals sign *)
  assert (Hno : forall (t u v : string), all is_space t = true ->
            u <> "" -> all is_digit_or_dot u = true ->
            forall x, (t ++ u ++ v)%string <> String "=" x).
  { intros t u v Ht Hu1 Hu2 x. destruct t as [|c t]; simpl.
    - destruct u as [|c u]; [congruence |]. simpl in *.
      apply andb_true_iff in Hu2. intros F. injection F as -> _.
      now apply (number_not_equals "="%char).
    - simpl in Ht. apply andb_true_iff in Ht. intros F. injection F as -> _.
      now apply (space_not_equals "="%char). }
  assert (E' : (s2 ++ n ++ r = s2' ++ n' ++ r')%string /\ e = e').
  { destruct He as [-> | ->], He' as [-> | ->]; simpl in E.
    - auto.
    - exfalso. now apply (Hno s2 n r Hs2 Hn1 Hn2 _ E).
    - exfalso. symmetry in E. now apply (Hno s2' n' r' Hs2' Hn1' Hn2' _ E).
    - injection E as E. auto. }
  destruct E' as [E' <-]. clear E Hno.
  (* the white space in front of the number *)
  apply span_unique with (p := is_space) in E'; auto;
    try (apply stops_nonempty with (q := is_digit_or_dot); auto using number_not_space).
  destruct E' as [<- E'].
  (* the number *)
  apply span_longest with (p := is_digit_or_dot) in E'; auto.
  rewrite !length_app. simpl. rewrite !length_app. lia.
Qed.

(** ** The iterator yields the propositions of the text *)

Lemma prop_min_len : 0 < min_len propPattern.
Proof. vm_compute. lia. Qed.

Lemma scan_Extracts : forall n s prev,
  String.length s <= n ->
  Extracts s (map whole (hits (scan propPattern prev s 0))).
Proof.
  induction n as [|n IH]; intros s prev L.
  - destruct s; simpl in L; [| lia].
    rewrite (scan_unfold _ _ _ prop_min_len).
    destruct (match_at false propPattern prev "") as [[m rest]|] eqn:H; [| constructor].
    apply prop_match_some in H. destruct H as (E & (w & ? & ? & ? & ? & ? & Em & Hw & _) & _).
    rewrite Em in E. destruct w; [congruence | discriminate].
  - rewrite (scan_unfold _ _ _ prop_min_len).
    destruct (match_at false propPattern prev s) as [[m rest]|] eqn:H.
    + pose proof (match_at_nonempty _ _ _ _ _ _ prop_min_len H) as (c & m' & Em).
      apply prop_match_some in H. destruct H as (-> & Hp & Hs).
      simpl. constructor; auto.
      * intros m2 r2 E Hp2. eapply is_prop_longest; eauto.
      * apply IH. rewrite Em in L. simpl in L. rewrite length_app in L. lia.
    + destruct s as [|c s]; [constructor |].
      simpl. constructor.
      * now apply (prop_match_none _ _ H).
      * apply IH. simpl in L. lia.
Qed.

Lemma extract_Extracts s : Extracts s (extractAtomicPropositions s).
Proof. apply (scan_Extracts (String.length s)). lia. Qed.

Lemma Extracts_nothing s ms :
  Extracts s ms ->
  (forall pre m post, s = (pre ++ m ++ post)%string -> ~ is_prop m) ->
  ms = [].
Proof.
  induction 1 as [|c s ms Hc _ IH|m r ms Hm _ _ _]; intros N.
  - reflexivity.
  - apply IH. intros pre m post ->. apply (N (String c pre) m post). reflexivity.
  - exfalso. apply (N "" m r); auto.
Qed.

(** ** The propositions are plain texts *)

Lemma word_plain c : is_word c = true -> plain_char c = true.
Proof. by_cases c. Qed.

Lemma space_plain c : is_space c = true -> plain_char c = true.
Proof. by_cases c. Qed.

Lemma angle_plain c : is_angle c = true -> plain_char c = true.
Proof. by_cases c. Qed.

Lemma number_plain c : is_digit_or_dot c = true -> plain_char c = true.
Proof. by_cases c. Qed.

(** The texts the extractor returns are plain. *)
Lemma is_prop_plain m : is_prop m -> plain m = true.
Proof.
  intros (w & s1 & o & e & s2 & n & -> & _ & Hw & Hs1 & Ho & He & Hs2 & _ & Hn).
  unfold plain.
  rewrite !all_app. simpl. rewrite !all_app.
  rewrite (all_impl _ _ _ word_plain Hw), (all_impl _ _ _ space_plain Hs1),
    (angle_plain _ Ho), (all_impl _ _ _ space_plain Hs2),
    (all_impl _ _ _ number_plain Hn).
  destruct He as [-> | ->]; reflexivity.
Qed.

Lemma Extracts_props s ms : Extracts s ms -> Forall is_prop ms.
Proof. induction 1; auto. Qed.

(** ** The description admits one list only *)

Lemma is_prop_nonempty m : is_prop m -> m <> "".
Proof.
  intros (w & s1 & o & e & s2 & n & -> & Hw & _) E.
  destruct w; [congruence | discriminate].
Qed.

Lemma Extracts_unique s ms1 :
  Extracts s ms1 -> forall ms2, Extracts s ms2 -> ms1 = ms2.
Proof.
  induction 1 as [|c s ms1 N1 _ IH|m r ms1 P1 L1 _ IH]; intros ms2 H2.
  - inversion H2 as [| |m' r' ms' P2 _ _ E]; subst; [reflexivity |].
    apply is_prop_nonempty in P2. destruct m'; [congruence | discriminate].
  - inversion H2 as [|c' s' ms' N2 H2' E|m' r' ms' P2 _ _ E]; subst.
    + now apply IH.
    + exfalso. now apply (N1 m' r').
  - remember (m ++ r)%string as t eqn:Et.
    destruct H2 as [|c' s' ms' N2 H2'|m' r' ms' P2 L2 H2'].
    + apply is_prop_nonempty in P1. destruct m; [congruence | discriminate].
    + exfalso. now apply (N2 m r).
    + assert (E : String.length m = String.length m').
      { apply Nat.le_antisymm; [apply (L2 m r) | apply (L1 m' r')]; auto. }
      destruct (app_same_length _ _ _ _ Et (eq_sym E)) as [-> ->].
      f_equal. now apply IH.
Qed.

(** Claim C6.  For every text the extractor returns the propositions of the
    text in the order in which they occur, reading from the left and taking
    at each start the longest proposition, and no other list answers this
    description; nothing is removed, so that ["y < 2 and y < 2"] yields two
    equal entries.  A text in which no proposition occurs, the empty text
    included, yields the empty list. *)
Theorem extractor_returns_the_propositions :
  (forall s, Extracts s (extractAtomicPropositions s)) /\
  (forall s ms, Extracts s ms -> ms = extractAtomicPropositions s) /\
  extractAtomicPropositions "y < 2 and y < 2" = ["y < 2"; "y < 2"] /\
  (forall s, (forall m, occurs m s -> ~ is_prop m) ->
             extractAtomicPropositions s = []) /\
  extractAtomicPropositions "" = [].
Proof.
  split; [exact extract_Extracts |].
  split; [intros s ms H; apply (Extracts_unique s ms H), extract_Extracts |].
  split; [vm_compute; reflexivity |].
  split; [| vm_compute; reflexivity].
  intros s N. apply (Extracts_nothing s _ (extract_Extracts s)).
  intros pre m post E. apply N. now exists pre, post.
Qed.

End Extractor.

(* ================================================================== *)
(** * The temporal partitioner *)

Module Partitioner.

Import StrFacts RegexFacts.

Lemma g_min_len : 0 < min_len gPattern.
Proof. vm_compute. lia. Qed.

Lemma substitute_Rewritten fmt : forall n s prev,
  String.length s <= n ->
  Rewritten fmt prev s (substitute fmt (scan gPattern prev s 0)).
Proof.
  induction n as [|n IH]; intros s prev L; rewrite (scan_unfold _ _ _ g_min_len).
  - destruct s; simpl in L; [| lia].
    destruct (match_at false gPattern prev "") as [[m rest]|] eqn:H; [| constructor].
    destruct (match_at_nonempty _ _ _ _ _ _ g_min_len H) as (c & m' & E).
    apply match_at_sound in H. destruct H as [H _]. rewrite E in H. discriminate.
  - destruct (match_at false gPattern prev s) as [[m rest]|] eqn:H.
    + destruct (match_at_nonempty _ _ _ _ _ _ g_min_len H) as (c & m' & E).
      apply match_at_sound in H. destruct H as [-> H].
      simpl substitute. constructor; auto.
      * rewrite E. discriminate.
      * apply IH. rewrite E in L. simpl in L. rewrite length_app in L. lia.
    + destruct s as [|c s]; [constructor |].
      simpl substitute. constructor.
      * intros m r E M. rewrite E in H. revert H. now apply match_at_complete.
      * apply IH. simpl in L. lia.
Qed.

(** Claim C1, as amended.  Whenever the partitioner returns, its output is
    the formula in which every occurrence of the shape
    [G [a, b] ((p2) U (p3))], not only the first one, has been replaced by the
    replacement text; only the characters at which no occurrence starts are
    kept unchanged. *)
Theorem partitioner_rewrites_every_occurrence :
  forall (formula : string) (partitionPoints : ZS.t) (out : string),
    partitionTemporalOperators formula partitionPoints = Ok out ->
    exists fmt, Rewritten fmt None formula out.
Proof.
  intros formula pts out. unfold partitionTemporalOperators.
  destruct (regex_search gPattern formula) as [[[pre m] suf]|] eqn:S.
  - destruct (bound m 1) as [a|]; simpl; [| discriminate].
    destruct (bound m 2) as [b|]; simpl; [| discriminate].
    destruct (build_replacement pts a b) as [fmt|]; simpl; [| discriminate].
    unfold regex_replace. destruct (contains_char "$" fmt); [discriminate |].
    intros H. injection H as <-. exists fmt.
    apply (substitute_Rewritten fmt (String.length formula)). lia.
  - intros H. injection H as <-. exists "".
    rewrite <- (regex_search_none gPattern formula None "" g_min_len S) at 2.
    apply (substitute_Rewritten "" (String.length formula)). lia.
Qed.

Lemma partitioner_rewrites_every_occurrence_witness :
  partitionTemporalOperators two_occurrences example_points
    = Ok "G [0, 5] ((p2) U (p3))  and G [0, 5] ((p2) U (p3)) " /\
  exists fmt, Rewritten fmt None two_occurrences
                "G [0, 5] ((p2) U (p3))  and G [0, 5] ((p2) U (p3)) ".
Proof.
  split; [vm_compute; reflexivity |].
  apply (partitioner_rewrites_every_occurrence two_occurrences example_points).
  vm_compute; reflexivity.
Defined.

(** Claim C1, as stated, fails: with two occurrences in the formula the
    second one is rewritten as well, so the text behind the first occurrence
    is not kept. *)
Lemma partitioner_rewrites_second_occurrence :
  partitionTemporalOperators two_occurrences example_points
    = Ok "G [0, 5] ((p2) U (p3))  and G [0, 5] ((p2) U (p3)) " /\
  ~ rewrites_first_only two_occurrences
      "G [0, 5] ((p2) U (p3))  and G [0, 5] ((p2) U (p3)) ".
Proof.
  split; [vm_compute; reflexivity |].
  intros H.
  destruct (H "" {| whole := "G [0, 5] ((p2) U (p3))"; subs := ["0"; "5"] |}
              " and G [0, 9] ((p2) U (p3))") as [r E]; [vm_compute; reflexivity |].
  simpl in E.
  assert (F : ends_with " and G [0, 9] ((p2) U (p3))"
                "G [0, 5] ((p2) U (p3))  and G [0, 5] ((p2) U (p3)) " = true)
    by (rewrite E; apply ends_with_app).
  vm_compute in F. discriminate.
Qed.

End Partitioner.

(* ================================================================== *)
(** * The worked example: signal, partition points, partitioned formula *)

Module Example.

(** Claim C3.  On the formula [G [0, 20] ((p2) U (p3))] and the partition
    points 5, 8, 10, 15, 20 the partitioner returns the five conjuncts over
    [0,5], [6,8], [9,10], [11,15], [16,20] joined by the conjunction sign, and
    every interval after the first starts one above the partition point
    before it. *)
Theorem partition_of_the_example :
  let intervals := [(0, 5); (6, 8); (9, 10); (11, 15); (16, 20)]%Z in
  partitionTemporalOperators "G [0, 20] ((p2) U (p3))" example_points
    = Ok (joined intervals) /\
  joined intervals
    = "G [0, 5] ((p2) U (p3)) ∧ G [6, 8] ((p2) U (p3)) ∧ G [9, 10] ((p2) U (p3)) ∧ G [11, 15] ((p2) U (p3)) ∧ G [16, 20] ((p2) U (p3)) " /\
  map nat_of_ascii (list_ascii_of_string wedge) = wedge_bytes /\
  ZS.elements example_points = [5; 8; 10; 15; 20]%Z /\
  map fst (tl intervals) = map Z.succ (removelast (ZS.elements example_points)) /\
  map snd intervals = ZS.elements example_points.
Proof. vm_compute. repeat split; reflexivity. Qed.

Lemma synthesize_more_fuel T : forall fuel t signal k,
  synthesize_from fuel T t = Ok signal ->
  synthesize_from (fuel + k) T t = Ok signal.
Proof.
  induction fuel as [|fuel IH]; intros t signal k H; simpl in *; [discriminate |].
  destruct (leb t T); [| exact H].
  destruct (synthesize_from fuel T (add t tenth)) as [sig'|] eqn:E; [| discriminate].
  now rewrite (IH _ _ k E).
Qed.

Lemma signal_of_the_example :
  exists signal,
    synthesizeSignal 301 horizon = Ok signal /\
    List.length signal = 300 /\
    (s <- constructStablePartitions signal ;; Ok (ZS.elements s))
      = Ok [5; 8; 10; 15; 20]%Z.
Proof.
  destruct (synthesizeSignal 301 horizon) as [signal|] eqn:E.
  - exists signal. split; [reflexivity |].
    assert (E' : Ok signal = synthesizeSignal 301 horizon) by (now rewrite E).
    clear E. vm_compute in E'. injection E' as ->. vm_compute. split; reflexivity.
  - vm_compute in E. discriminate.
Qed.

(** Claim C4.  For the horizon 30 and the step 0.1, signal synthesis
    followed by partition-point construction returns, as soon as the loop is
    given the 301 turns it takes, exactly the points 5, 8, 10, 15, 20, each
    once and in ascending order. *)
Theorem partition_points_of_the_example :
  forall fuel, 301 <= fuel ->
    partition_points_of_signal fuel horizon = Ok [5; 8; 10; 15; 20]%Z.
Proof.
  intros fuel L. unfold partition_points_of_signal.
  destruct signal_of_the_example as (signal & S & _ & P).
  replace fuel with (301 + (fuel - 301)) by lia.
  unfold synthesizeSignal in *. rewrite (synthesize_more_fuel _ _ _ _ _ S).
  exact P.
Qed.

Lemma partition_points_of_the_example_witness :
  301 <= 400 /\ partition_points_of_signal 400 horizon = Ok [5; 8; 10; 15; 20]%Z.
Proof.
  split; [lia | apply (partition_points_of_the_example 400); lia].
Defined.

End Example.

(* ================================================================== *)
(** * The proposition map *)

Module PropMap.

Lemma fill_map_absent text : forall atomicProps i propMap,
  (forall j, nth_error atomicProps j <> Some text) ->
  SM.find text (fill_map atomicProps i propMap) = SM.find text propMap.
Proof.
  induction atomicProps as [|p rest IH]; intros i propMap N; simpl; [reflexivity |].
  rewrite IH.
  - apply SMF.add_neq_o. intros E. apply (N 0). simpl. now rewrite E.
  - intros j. apply (N (S j)).
Qed.

(** The binding of a text is made at its last occurrence. *)
Lemma fill_map_last text : forall atomicProps i0 propMap i,
  nth_error atomicProps i = Some text ->
  (forall j, i < j -> nth_error atomicProps j <> Some text) ->
  SM.find text (fill_map atomicProps i0 propMap) = Some (boolean_name (i0 + i)).
Proof.
  induction atomicProps as [|p rest IH]; intros i0 propMap i H L.
  - destruct i; discriminate.
  - destruct i as [|i]; simpl in *.
    + injection H as ->. rewrite fill_map_absent.
      * rewrite SMF.add_eq_o by reflexivity. now rewrite Nat.add_0_r.
      * intros j. apply (L (S j)). lia.
    + rewrite (IH (S i0) _ i H).
      * f_equal. f_equal. lia.
      * intros j Lj. apply (L (S j)). lia.
Qed.

(** Every binding is made at an occurrence of its text. *)
Lemma fill_map_binding key name : forall atomicProps i0 propMap,
  SM.find key (fill_map atomicProps i0 propMap) = Some name ->
  (exists i, nth_error atomicProps i = Some key /\ name = boolean_name (i0 + i)) \/
  SM.find key propMap = Some name.
Proof.
  induction atomicProps as [|p rest IH]; intros i0 propMap H; simpl in H; [now right |].
  apply IH in H. destruct H as [(i & Hi & ->) | H].
  - left. exists (S i). split; [exact Hi | f_equal; lia].
  - rewrite SMF.add_o in H. destruct (OrderedTypeEx.String_as_OT.eq_dec p key) as [E | E].
    + injection H as <-. left. exists 0. simpl. rewrite E, Nat.add_0_r. auto.
    + now right.
Qed.

(** Claim C2, as amended.  For every list of extracted propositions, each
    name in the map is [p(i+1)] for a position [i] at which its text was
    extracted: the names follow the extraction order.  The order in which the
    map lists its entries, increasing in the text, decides only the order of
    listing and of substitution.  On ["z > 1 and y < 2"] the name [p1] is
    bound to the text that appears first, ["z > 1"], although the map lists
    ["y < 2"] first. *)
Theorem names_follow_extraction_order :
  (forall atomicProps key name,
     SM.find key (build_map atomicProps) = Some name ->
     exists i, nth_error atomicProps i = Some key /\ name = boolean_name i) /\
  (forall atomicProps,
     Sorted (fun e1 e2 => OrderedTypeEx.String_as_OT.lt (fst e1) (fst e2))
            (SM.elements (build_map atomicProps))) /\
  extractAtomicPropositions "z > 1 and y < 2" = ["z > 1"; "y < 2"] /\
  SM.elements (build_map ["z > 1"; "y < 2"]) = [("y < 2", "p2"); ("z > 1", "p1")].
Proof.
  split; [| split; [| split; vm_compute; reflexivity]].
  - intros atomicProps key name H. unfold build_map in H.
    apply fill_map_binding in H. destruct H as [H | H]; [exact H |].
    rewrite SMF.empty_o in H. discriminate.
  - intros atomicProps. apply SM.elements_3.
Qed.

(** Claim C2, as stated, fails: on ["z > 1 and y < 2"] the first entry the
    map lists, ["y < 2"], is named [p2]. *)
Lemma names_do_not_follow_iteration_order :
  ~ names_follow_iteration_order "z > 1 and y < 2".
Proof.
  intros H. specialize (H 0 "y < 2" "p2" eq_refl). vm_compute in H. discriminate.
Qed.

(** Claim C9.  A text extracted at several positions is bound to the name of
    its last position, the later assignments overwriting the earlier ones.
    On ["y < 2 and y < 2"] the map holds the single entry ["y < 2" -> "p2"],
    so that no text is bound to [p1]. *)
Theorem duplicates_keep_the_last_name :
  forall atomicProps text i,
    nth_error atomicProps i = Some text ->
    (forall j, i < j -> nth_error atomicProps j <> Some text) ->
    SM.find text (build_map atomicProps) = Some (boolean_name i) /\
    extractAtomicPropositions "y < 2 and y < 2" = ["y < 2"; "y < 2"] /\
    SM.elements (build_map ["y < 2"; "y < 2"]) = [("y < 2", "p2")] /\
    forall key, SM.find key (build_map ["y < 2"; "y < 2"]) <> Some "p1".
Proof.
  intros atomicProps text i H L. split; [| split; [| split]].
  - apply (fill_map_last text atomicProps 0 _ i H L).
  - vm_compute; reflexivity.
  - vm_compute; reflexivity.
  - intros key F. pose proof (fill_map_binding _ _ _ _ _ F) as B.
    destruct B as [(j & Hj & _) | B].
    + assert (E : key = "y < 2").
      { destruct j as [|[|j]]; simpl in Hj; [congruence | congruence |].
        destruct j; discriminate. }
      subst key. vm_compute in F. discriminate.
    + rewrite SMF.empty_o in B. discriminate.
Qed.

Lemma duplicates_keep_the_last_name_witness :
  nth_error ["y < 2"; "z > 1"; "y < 2"] 2 = Some "y < 2" /\
  SM.find "y < 2" (build_map ["y < 2"; "z > 1"; "y < 2"]) = Some "p3".
Proof.
  split; [reflexivity |].
  refine (proj1 (duplicates_keep_the_last_name
                   ["y < 2"; "z > 1"; "y < 2"] "y < 2" 2 eq_refl _)).
  intros [|[|[|[|j]]]] L; simpl; try discriminate; lia.
Defined.

End PropMap.

(* ================================================================== *)
(** * The file writer and the exit status *)

Module Writer.

Import StrFacts.

(** Claim C7.  The writer appends [.mitl] exactly when [.mitl] occurs
    nowhere in the given name; an occurrence anywhere, not only at the end,
    leaves the name as it is.  [result] becomes [result.mitl]; [result.mitl]
    and [data.mitl.bak] are unchanged.  The file is opened under that name. *)
Theorem extension_by_substring_check :
  forall filename,
    (occurs ".mitl" filename -> mitl_filename filename = filename) /\
    (~ occurs ".mitl" filename -> mitl_filename filename = filename ++ ".mitl") /\
    (forall mitlFormula,
        file (writeMITLToFile (fun _ => true) mitlFormula filename)
        = Some (mitl_filename filename, mitlFormula)) /\
    mitl_filename "result" = "result.mitl" /\
    mitl_filename "result.mitl" = "result.mitl" /\
    mitl_filename "data.mitl.bak" = "data.mitl.bak".
Proof.
  intros filename. unfold mitl_filename.
  split; [| split; [| split; [| repeat split]]].
  - intros O. destruct (find ".mitl" filename) eqn:F; [reflexivity |].
    apply find_none in F. contradiction.
  - intros O. destruct (find ".mitl" filename) eqn:F; [| reflexivity].
    exfalso. assert (N : find ".mitl" filename <> None) by congruence.
    apply N. now apply find_none.
  - reflexivity.
Qed.

(** With enough turns for the signal loop, the pipeline does not depend on
    the number of turns granted. *)
Lemma pipeline_fuel fuel stlFormula :
  301 <= fuel -> pipeline fuel stlFormula = pipeline 301 stlFormula.
Proof.
  intros L. unfold pipeline.
  destruct Example.signal_of_the_example as (signal & S & _).
  replace fuel with (301 + (fuel - 301)) by lia.
  unfold synthesizeSignal in *.
  now rewrite (Example.synthesize_more_fuel _ _ _ _ _ S), S.
Qed.

Lemma main_fuel fuel can_open stdin :
  301 <= fuel -> main fuel can_open stdin = main 301 can_open stdin.
Proof.
  intros L. unfold main. destruct (getline stdin) as [stlFormula stdin'].
  now rewrite (pipeline_fuel fuel stlFormula L).
Qed.

(** When [main] returns, it returns 0, whether or not the file opened; a
    file that does not open is reported on the diagnostic stream. *)
Lemma returns_zero fuel can_open stdin status e :
  main fuel can_open stdin = Exited status e ->
  status = 0%Z /\ (file e = None -> cerr e <> "").
Proof.
  unfold main. destruct (getline stdin) as [stlFormula stdin'].
  destruct (pipeline fuel stlFormula) as [mitlFormula|]; [| discriminate].
  intros H. injection H as <- <-. split; [reflexivity |].
  unfold writeMITLToFile. destruct (can_open _); simpl; discriminate.
Qed.

(** Claim C8 fails on the code.  On the formula [G [., 5] ((p2) U (p3))] the
    pattern of the partitioner matches with the first bound [.], on which
    [std::stod] throws [std::invalid_argument]; [main] catches nothing, and
    the process is terminated instead of returning 0. *)
Theorem dot_bound_terminates_the_process :
  forall fuel can_open, 301 <= fuel ->
    main fuel can_open dot_bound_input = Aborted invalid_argument.
Proof.
  intros fuel can_open L. rewrite (main_fuel _ _ _ L). vm_compute. reflexivity.
Qed.

Lemma dot_bound_terminates_the_process_witness :
  301 <= 301 /\ main 301 (fun _ => true) dot_bound_input = Aborted invalid_argument.
Proof.
  split; [lia | apply (dot_bound_terminates_the_process 301 (fun _ => true)); lia].
Defined.

End Writer.

(* ================================================================== *)
(** * The renamer *)

Module Renamer.

Import StrFacts RegexFacts.

Lemma plain_key_items key : plain key = true -> key_items key = Ok (items_of key).
Proof.
  induction key as [|c key IH]; simpl; intros H; [reflexivity |].
  apply andb_true_iff in H. destruct H as [Hc H]. rewrite (IH H).
  unfold key_item. unfold plain_char in Hc.
  destruct (Ascii.eqb c "."); [reflexivity |].
  simpl in Hc. apply negb_true_iff in Hc. now rewrite Hc.
Qed.

Lemma plain_app a b : plain (a ++ b) = plain a && plain b.
Proof. apply all_app. Qed.

Lemma agree_refl s : agree s s = true.
Proof.
  induction s as [|c s IH]; simpl; [reflexivity |]. rewrite IH, andb_true_r.
  destruct (Ascii.eqb c ".") eqn:E; [| apply Ascii.eqb_refl].
  apply Ascii.eqb_eq in E. now subst c.
Qed.

Lemma agree_app k1 t1 k2 t2 :
  agree k1 t1 = true -> agree k2 t2 = true -> agree (k1 ++ k2) (t1 ++ t2) = true.
Proof.
  revert t1. induction k1 as [|a k1 IH]; intros [|b t1]; simpl; try discriminate; auto.
  intros H1 H2. apply andb_true_iff in H1. destruct H1 as [Hc H1].
  now rewrite Hc, (IH t1 H1 H2).
Qed.

Lemma min_len_items key : min_len (items_of key) = String.length key.
Proof. unfold min_len. induction key as [|c key IH]; simpl; [reflexivity | now rewrite IH]. Qed.

(** The pieces of a key pass over any text that agrees with the key. *)
Lemma run_items {R : Type} (k : @cont R) re : forall key text prev rest caps,
  agree key text = true ->
  run (items_of key ++ re)%list k prev (text ++ rest) caps
  = run re k (last_char prev text) rest caps.
Proof.
  induction key as [|a key IH]; intros [|b text] prev rest caps H;
    simpl in H; try discriminate; [reflexivity |].
  apply andb_true_iff in H. destruct H as [Hc H].
  simpl. rewrite <- (IH text (Some b) rest caps H).
  destruct (Ascii.eqb a "."); [now rewrite Hc |].
  unfold is_char. now rewrite Hc.
Qed.

(** A text that agrees with the key, stands at the front of the formula
    between two word boundaries and is followed by less than another match,
    is replaced, and what follows it is kept. *)
Lemma rename_front key text tail name :
  plain key = true -> agree key text = true ->
  String.length tail < String.length key ->
  word_boundary None (text ++ tail) = true ->
  word_boundary (last_char None text) tail = true ->
  contains_char "$" name = false ->
  rename_step (text ++ tail) (key, name) = Ok (name ++ tail).
Proof.
  intros P A N B1 B2 D. unfold rename_step, word_regex. simpl fst. simpl snd.
  rewrite (plain_key_items _ P). simpl bind.
  unfold regex_replace. rewrite D. f_equal.
  assert (L : min_len (Bnd :: items_of key ++ [Bnd])%list = String.length key).
  { change (Bnd :: items_of key ++ [Bnd])%list with ([Bnd] ++ items_of key ++ [Bnd])%list.
    rewrite !min_len_app, min_len_items. unfold min_len. simpl. lia. }
  unfold tokens. rewrite scan_unfold by lia.
  assert (M : match_at false (Bnd :: items_of key ++ [Bnd])%list None (text ++ tail)
              = Some ({| whole := text; subs := [] |}, tail)).
  { unfold match_at. simpl run. rewrite B1.
    rewrite (run_items _ _ _ _ _ _ _ A).
    simpl. rewrite B2. now rewrite consumed_app. }
  rewrite M. simpl substitute. simpl whole.
  rewrite substitute_short by lia. reflexivity.
Qed.

Lemma is_prop_first m : is_prop m -> exists c m', m = String c m' /\ is_word c = true.
Proof.
  intros (w & s1 & o & e & s2 & n & -> & Hw1 & Hw2 & _).
  destruct w as [|c w]; [congruence |]. simpl in Hw2.
  apply andb_true_iff in Hw2. exists c. simpl. eexists. split; [reflexivity | tauto].
Qed.

Lemma is_prop_length m : is_prop m -> 3 <= String.length m.
Proof.
  intros (w & s1 & o & e & s2 & n & -> & Hw1 & _ & _ & _ & _ & _ & Hn1 & _).
  destruct w; [congruence |]. destruct n; [congruence |].
  simpl. rewrite !length_app. simpl. rewrite !length_app. simpl. lia.
Qed.

Lemma last_char_some s : forall prev, s <> "" -> exists d, last_char prev s = Some d.
Proof.
  induction s as [|c s IH]; intros prev N; [congruence |]. simpl.
  destruct s as [|c' s]; [now exists c |]. apply IH. discriminate.
Qed.

(** Claim C5, as amended.  The renamer does not escape the characters of a
    proposition text: a period of the text is the wildcard of the pattern,
    which matches every character other than a line terminator (line feed,
    carriage return).  So for every map entry whose text has a period and
    every such character there is a formula in which the text with that
    character in the place of the period is replaced by the entry's name.  On
    ["x >= 0.3 or x >= 013"] both propositions are replaced by [p1], the name
    of ["x >= 0.3"]. *)
Theorem period_is_a_wildcard :
  (forall c, is_line_terminator c = false -> period_matches c) /\
  key_item "." = Ok (One any_char) /\
  (forall c, any_char c = true <-> code c <> 10 /\ code c <> 13) /\
  extractAtomicPropositions "x >= 0.3 or x >= 013" = ["x >= 0.3"; "x >= 013"] /\
  SM.elements (build_map ["x >= 0.3"; "x >= 013"])
    = [("x >= 0.3", "p1"); ("x >= 013", "p2")] /\
  replaceAtomicProps "x >= 0.3 or x >= 013" (build_map ["x >= 0.3"; "x >= 013"])
    = Ok "p1 or p1".
Proof.
  split; [| split; [reflexivity | split; [| repeat split; vm_compute; reflexivity]]].
  - intros c T pre post name P D.
    destruct (is_prop_first _ P) as (k0 & key' & E & W).
    destruct pre as [|p0 pre]; simpl in E.
    { injection E as <- _. discriminate W. }
    injection E as <- _.
    destruct (last_char_some (String p0 pre ++ String c post) None) as [d Ld];
      [discriminate |].
    exists (if is_word d then "" else "0").
    replace (String p0 pre ++ String c (post ++ (if is_word d then "" else "0")))
      with ((String p0 pre ++ String c post) ++ (if is_word d then "" else "0"))
      by (rewrite app_assoc; reflexivity).
    apply rename_front.
    + now apply Extractor.is_prop_plain.
    + apply agree_app; [apply agree_refl |].
      simpl. unfold any_char. rewrite T. simpl. apply agree_refl.
    + apply is_prop_length in P. destruct (is_word d); simpl in *; lia.
    + unfold word_boundary. cbn [append]. now rewrite W.
    + rewrite Ld. unfold word_boundary.
      destruct (is_word d) eqn:Wd; reflexivity.
    + exact D.
  - intros c. unfold any_char, is_line_terminator.
    rewrite negb_true_iff, orb_false_iff, !Nat.eqb_neq. tauto.
Qed.

(** Claim C5, as stated, fails: a carriage return in the place of the period
    of ["x >= 0.3"] is not matched; whatever follows, the formula keeps its
    first character, and the name does not stand at its front. *)
Lemma period_does_not_match_carriage_return :
  ~ period_matches carriage_return.
Proof.
  intros H. destruct (H "x >= 0" "3" "p1") as [tail E]; [| reflexivity |].
  - exists "x", " ", ">"%char, "=", " ", "0.3".
    repeat split; try discriminate; auto.
  - unfold rename_step in E. simpl fst in E. simpl snd in E.
    change (word_regex "x >= 0.3")
      with (Ok (Bnd :: items_of "x >= 0.3" ++ [Bnd])%list) in E.
    simpl bind in E. unfold regex_replace in E.
    change (contains_char "$" "p1") with false in E. cbv iota in E.
    unfold tokens in E. rewrite scan_unfold in E by (vm_compute; lia).
    change (match_at false (Bnd :: items_of "x >= 0.3" ++ [Bnd])%list None
              ("x >= 0" ++ String carriage_return ("3" ++ tail)))
      with (@None (smatch * string)) in E.
    simpl in E. discriminate.
Qed.

End Renamer.

(* ================================================================== *)
(** * The bounds of the partitioner *)

Module Bounds.

Import StrFacts.

Local Open Scope Z_scope.

Lemma binary_round_aux_sign sx mx ex lx s m e :
  binary_round_aux prec emax sx mx ex lx = S754_finite s m e -> s = sx.
Proof.
  unfold binary_round_aux.
  destruct (shr_fexp prec emax mx ex lx) as [mrs' e'].
  destruct (shr_fexp prec emax _ e' loc_Exact) as [mrs'' e''].
  destruct (shr_m mrs''); try discriminate.
  destruct (e'' <=? emax - prec); [| discriminate].
  intros H. now injection H.
Qed.

(** [std::stod] on a text without sign returns no negative number. *)
Lemma stod_sign str d : stod str = Ok d ->
  d = S754_zero false \/ exists m e, d = S754_finite false m e.
Proof.
  unfold stod. destruct (_ ++ _)%string as [|c0 ds]; [discriminate |].
  destruct (decimal 0 _) as [|n|n]; try (intros H; injection H as <-; now left).
  cbv zeta. unfold of_ratio, SFdiv.
  destruct (SFdiv_core_binary prec emax _ 0 _ 0) as [[mz ez] lz].
  destruct (binary_round_aux prec emax _ mz ez lz) as [| | |s m e] eqn:B; try discriminate.
  apply binary_round_aux_sign in B. simpl in B. subst s.
  destruct (andb _ _); [discriminate |].
  intros H. injection H as <-. right. eauto.
Qed.

Lemma bound_nonneg m i a : bound m i = Ok a -> 0 <= a.
Proof.
  unfold bound. destruct (stod _) as [d|] eqn:S; simpl; [| discriminate].
  apply stod_sign in S. destruct S as [-> | (mm & e & ->)]; simpl.
  - intros H. injection H as <-. lia.
  - destruct (_ && _); [| discriminate]. intros H. injection H as <-.
    unfold magnitude_floor. destruct (0 <=? e) eqn:E.
    + apply Z.mul_nonneg_nonneg; [lia | apply Z.pow_nonneg; lia].
    + apply Z.leb_gt in E. apply Z.div_pos; [lia | apply Z.pow_pos_nonneg; lia].
Qed.

(** ** Decimal numerals *)

Lemma uint_digits d : all is_digit (NilEmpty.string_of_uint d) = true.
Proof. induction d; simpl; auto. Qed.

Lemma uint_nonempty d : NilZero.string_of_uint d <> ""%string.
Proof. destruct d; discriminate. Qed.

Lemma to_string_numeral z : 0 <= z -> integer_numeral (to_string z).
Proof.
  intros L. unfold to_string, integer_numeral.
  destruct z as [|p|p]; [split; [discriminate | reflexivity] | | lia].
  simpl. split; [apply uint_nonempty |].
  unfold NilZero.string_of_uint. destruct (Pos.to_uint p) eqn:E;
    try reflexivity; rewrite <- E; apply uint_digits.
Qed.

Lemma conjunct_shape r lo hi sep :
  Conjuncts r -> 0 <= lo -> 0 <= hi -> sep = ""%string \/ sep = wedge ->
  Conjuncts (r ++ conjunct lo hi ++ sep).
Proof.
  intros C Llo Lhi S. unfold conjunct.
  apply Cj_snoc; auto using to_string_numeral.
Qed.

(** ** The loop keeps the shape *)

Lemma partition_loop_shape b : forall it prev r res,
  0 <= prev -> Forall (fun t => 0 <= t) it -> Conjuncts r ->
  partition_loop it b prev r = Ok res ->
  0 <= fst res /\ Conjuncts (snd res).
Proof.
  induction it as [|t it IH]; intros prev r res Lp F C H; simpl in H.
  - injection H as <-. auto.
  - inversion F as [|? ? Lt F']; subst.
    destruct (t <=? b); [| injection H as <-; auto].
    destruct (t =? INT_MAX); [discriminate |].
    apply IH in H; auto; [lia |].
    destruct (prev <=? t); [| exact C].
    apply conjunct_shape; auto. destruct (t <? b); auto.
Qed.

Lemma not_less_than_sorted a : forall elements,
  StronglySorted Z.lt elements ->
  Forall (fun t => a <= t) (not_less_than a elements).
Proof.
  induction 1 as [|t rest S IH F]; simpl; [constructor |].
  destruct (t <? a) eqn:E; [exact IH |].
  apply Z.ltb_ge in E. constructor; [exact E |].
  apply Forall_forall. intros u U.
  rewrite Forall_forall in F. specialize (F u U). lia.
Qed.

Lemma lower_bound_nonneg a partitionPoints :
  0 <= a -> Forall (fun t => 0 <= t) (lower_bound a partitionPoints).
Proof.
  intros L. unfold lower_bound.
  assert (S : StronglySorted Z.lt (ZS.elements partitionPoints)).
  { apply Sorted_StronglySorted; [intros u v w; apply Z.lt_trans |].
    apply ZS.elements_spec2. }
  apply (not_less_than_sorted a) in S.
  apply Forall_forall. intros t H. rewrite Forall_forall in S.
  specialize (S t H). lia.
Qed.

Lemma build_replacement_shape partitionPoints a b fmt :
  0 <= a -> 0 <= b ->
  build_replacement partitionPoints a b = Ok fmt -> Conjuncts fmt.
Proof.
  intros La Lb. unfold build_replacement.
  destruct (partition_loop _ b a "") as [res|] eqn:H; simpl; [| discriminate].
  apply partition_loop_shape in H; auto using lower_bound_nonneg; [| constructor].
  destruct H as [Lp C]. intros E. injection E as <-.
  destruct (fst res <=? b); [| exact C].
  rewrite <- (app_nil_r (conjunct (fst res) b)). apply conjunct_shape; auto.
Qed.

End Bounds.

(* ================================================================== *)
(** * The program stays within the embedded fragment *)

Module Adequacy.

Import StrFacts RegexFacts Extractor.

Lemma digit_not_dollar c : is_digit c = true -> negb (Ascii.eqb c "$") = true.
Proof. by_cases c. Qed.

Lemma digits_no_dollar s : all is_digit s = true -> contains_char "$" s = false.
Proof.
  intros H. unfold contains_char.
  now rewrite (all_impl _ _ s digit_not_dollar H).
Qed.

Lemma boolean_name_no_dollar i : contains_char "$" (boolean_name i) = false.
Proof.
  unfold boolean_name. rewrite contains_char_app.
  change (contains_char "$" "p") with false. simpl orb.
  apply digits_no_dollar, Bounds.to_string_numeral. lia.
Qed.

Lemma rename_step_ok formula key name :
  plain key = true -> contains_char "$" name = false ->
  exists out, rename_step formula (key, name) = Ok out.
Proof.
  intros P D. unfold rename_step, word_regex, regex_replace. simpl fst. simpl snd.
  rewrite (Renamer.plain_key_items _ P). simpl. rewrite D. eauto.
Qed.

Lemma rename_fold : forall pairs formula,
  (forall key name, In (key, name) pairs ->
                    plain key = true /\ contains_char "$" name = false) ->
  exists out,
    fold_left (fun acc pair => mitlFormula <- acc ;; rename_step mitlFormula pair)
              pairs (Ok formula) = Ok out.
Proof.
  induction pairs as [|[key name] pairs IH]; intros formula H; simpl; [eauto |].
  destruct (H key name (or_introl eq_refl)) as [P D].
  destruct (rename_step_ok formula key name P D) as [out ->].
  apply IH. intros k v I. apply H. now right.
Qed.

Lemma elements_find (propMap : SM.t string) key name :
  In (key, name) (SM.elements propMap) -> SM.find key propMap = Some name.
Proof.
  intros I. apply SM.find_1, SM.elements_2. apply InA_alt.
  exists (key, name). split; [split; reflexivity | exact I].
Qed.

(** The renamer of [main] never meets a pattern or a format outside the
    embedded fragment. *)
Lemma rename_total formula atomicProps :
  Forall is_prop atomicProps ->
  exists out, replaceAtomicProps formula (build_map atomicProps) = Ok out.
Proof.
  intros F. unfold replaceAtomicProps. apply rename_fold.
  intros key name I. apply elements_find in I. unfold build_map in I.
  apply PropMap.fill_map_binding in I. destruct I as [(i & Hi & ->) | I].
  - split; [| apply boolean_name_no_dollar].
    apply is_prop_plain. rewrite Forall_forall in F. apply F.
    now apply nth_error_In with i.
  - rewrite SMF.empty_o in I. discriminate.
Qed.

Lemma stod_faults str f : stod str = Fail f -> f = invalid_argument \/ f = out_of_range.
Proof.
  unfold stod. destruct (_ ++ _)%string as [|c0 ds]; [intros H; injection H; auto |].
  destruct (decimal 0 _); try discriminate.
  destruct (of_ratio _ _) as [| | |s m e]; try (intros H; injection H; auto).
  destruct (_ && _); [intros H; injection H; auto | discriminate].
Qed.

Lemma to_int_faults d f : to_int d = Fail f -> f = undefined.
Proof.
  destruct d; simpl; try discriminate; try (intros H; now injection H).
  destruct (_ && _); [discriminate | intros H; now injection H].
Qed.

Lemma bound_faults m i f : bound m i = Fail f -> thrown_or_undefined f.
Proof.
  unfold bound, thrown_or_undefined. destruct (stod _) as [d|f'] eqn:S; simpl.
  - intros H. apply to_int_faults in H. auto.
  - intros H. injection H as ->. apply stod_faults in S. tauto.
Qed.

Lemma partition_loop_faults b : forall it prev r f,
  partition_loop it b prev r = Fail f -> f = undefined.
Proof.
  induction it as [|t it IH]; intros prev r f; simpl; [discriminate |].
  destruct (t <=? b)%Z; [| discriminate].
  destruct (t =? INT_MAX)%Z; [intros H; now injection H | apply IH].
Qed.

Lemma numeral_no_dollar s : integer_numeral s -> contains_char "$" s = false.
Proof. intros [_ H]. now apply digits_no_dollar. Qed.

Lemma conjuncts_no_dollar fmt : Conjuncts fmt -> contains_char "$" fmt = false.
Proof.
  induction 1 as [|r lo hi sep _ IH Hlo Hhi Hsep]; [reflexivity |].
  rewrite !contains_char_app, IH.
  rewrite (numeral_no_dollar _ Hlo), (numeral_no_dollar _ Hhi).
  destruct Hsep as [-> | ->]; reflexivity.
Qed.

Lemma partition_faults formula partitionPoints f :
  partitionTemporalOperators formula partitionPoints = Fail f ->
  thrown_or_undefined f.
Proof.
  unfold partitionTemporalOperators.
  destruct (regex_search gPattern formula) as [[[pre m] suf]|]; [| discriminate].
  destruct (bound m 1) as [a|fa] eqn:Ba; simpl;
    [| intros H; injection H as <-; now apply bound_faults in Ba].
  destruct (bound m 2) as [b|fb] eqn:Bb; simpl;
    [| intros H; injection H as <-; now apply bound_faults in Bb].
  destruct (build_replacement partitionPoints a b) as [fmt|fr] eqn:R; simpl.
  - apply Bounds.build_replacement_shape in R; eauto using Bounds.bound_nonneg.
    unfold regex_replace. now rewrite (conjuncts_no_dollar _ R).
  - intros H. injection H as <-. unfold build_replacement in R.
    destruct (partition_loop _ b a "") as [res|fl] eqn:L; simpl in R; [discriminate |].
    injection R as <-. apply partition_loop_faults in L. subst. unfold thrown_or_undefined. auto.
Qed.

(** Given the turns its signal loop takes, [main] either returns 0 or is
    ended by an exception of [std::stod] or by undefined behaviour in the
    partitioner: the faults of the embedding itself do not arise. *)
Lemma main_outcomes fuel can_open stdin :
  301 <= fuel ->
  (exists e, main fuel can_open stdin = Exited 0 e) \/
  (exists f, main fuel can_open stdin = Aborted f /\ thrown_or_undefined f).
Proof.
  intros L. rewrite (Writer.main_fuel _ _ _ L). unfold main.
  destruct (getline stdin) as [stlFormula stdin'].
  destruct (pipeline 301 stlFormula) as [mitlFormula|f] eqn:P; [left; eauto |].
  right. exists f. split; [reflexivity |].
  unfold pipeline in P.
  destruct Example.signal_of_the_example as (signal & S & _ & C).
  rewrite S in P. simpl in P.
  destruct (constructStablePartitions signal) as [pts|]; [| discriminate].
  simpl in P.
  destruct (rename_total stlFormula (extractAtomicPropositions stlFormula))
    as [mitl R]; [apply (Extracts_props stlFormula), extract_Extracts |].
  rewrite R in P. simpl in P. now apply partition_faults in P.
Qed.

End Adequacy.

(* ================================================================== *)
(** * The sub-intervals cover the interval *)

Module Cover.

Import StrFacts.

Local Open Scope Z_scope.

Lemma elements_sorted partitionPoints :
  StronglySorted Z.lt (ZS.elements partitionPoints).
Proof.
  apply Sorted_StronglySorted; [intros u v w; apply Z.lt_trans |].
  apply ZS.elements_spec2.
Qed.

Lemma not_less_than_keeps a : forall elements,
  Forall (fun t => a <= t) elements -> not_less_than a elements = elements.
Proof.
  intros [|t rest] F; simpl; [reflexivity |].
  inversion F as [|? ? L _]; subst.
  replace (t <? a) with false by (symmetry; apply Z.ltb_ge; lia). reflexivity.
Qed.

Lemma sorted_above t rest a :
  StronglySorted Z.lt (t :: rest) -> a <= t -> Forall (fun u => a <= u) (t :: rest).
Proof.
  intros S L. inversion S as [|? ? _ F]; subst. constructor; [exact L |].
  apply Forall_forall. intros u U. rewrite Forall_forall in F. specialize (F u U). lia.
Qed.

Lemma not_less_than_sorted' a : forall elements,
  StronglySorted Z.lt elements -> StronglySorted Z.lt (not_less_than a elements).
Proof.
  induction 1 as [|t rest S IH F]; simpl; [constructor |].
  destruct (t <? a); [exact IH | now constructor].
Qed.

Lemma not_less_than_In a : forall elements,
  StronglySorted Z.lt elements ->
  forall t, In t (not_less_than a elements) <-> In t elements /\ a <= t.
Proof.
  induction 1 as [|u rest S IH F]; intros t; simpl; [tauto |].
  destruct (u <? a) eqn:E.
  - apply Z.ltb_lt in E. rewrite IH. split; [tauto |].
    intros [[-> | H] L]; [lia | tauto].
  - apply Z.ltb_ge in E. simpl. split; [| tauto].
    rewrite Forall_forall in F.
    intros [-> | H]; [auto | specialize (F _ H); split; [auto | lia]].
Qed.

Lemma not_less_than_filter a b : forall elements,
  StronglySorted Z.lt elements ->
  filter (fun t => t <? b) (not_less_than a elements)
  = filter (fun t => (a <=? t) && (t <? b)) elements.
Proof.
  induction 1 as [|u rest S IH F]; simpl; [reflexivity |].
  destruct (u <? a) eqn:E.
  - apply Z.ltb_lt in E.
    replace (a <=? u) with false by (symmetry; apply Z.leb_gt; lia). exact IH.
  - apply Z.ltb_ge in E.
    assert (A : Forall (fun t => a <= t) (u :: rest))
      by (apply sorted_above; [now constructor | exact E]).
    inversion A as [|? ? _ A']; subst.
    rewrite <- IH, (not_less_than_keeps a rest A'). simpl.
    replace (a <=? u) with true by (symmetry; apply Z.leb_le; lia). reflexivity.
Qed.

(** Beyond [b] the loop stops at once. *)
Lemma loop_stops b : forall it prev acc,
  Forall (fun t => b < t) it -> partition_loop it b prev acc = Ok (prev, acc).
Proof.
  intros [|t it] prev acc F; simpl; [reflexivity |].
  inversion F as [|? ? L _]; subst.
  replace (t <=? b) with false by (symmetry; apply Z.leb_gt; lia). reflexivity.
Qed.

Lemma filter_beyond b : forall it,
  Forall (fun t => b <= t) it -> filter (fun t => t <? b) it = [].
Proof.
  induction 1 as [|t it L _ IH]; simpl; [reflexivity |].
  replace (t <? b) with false by (symmetry; apply Z.ltb_ge; lia). exact IH.
Qed.

Lemma joined_cons lo hi ivs :
  ivs <> [] -> joined ((lo, hi) :: ivs) = (conjunct lo hi ++ wedge ++ joined ivs)%string.
Proof. destruct ivs; [congruence | reflexivity]. Qed.

Lemma Chain_nonempty lo hi ivs : Chain lo hi ivs -> ivs <> [].
Proof. destruct 1; discriminate. Qed.

(** The loop and the conjunct after it, from any state of the loop. *)
Lemma loop_chain b : forall it prev acc fmt,
  StronglySorted Z.lt it -> Forall (fun t => prev <= t) it -> prev <= b ->
  (r <- partition_loop it b prev acc ;;
   Ok (if fst r <=? b then (snd r ++ conjunct (fst r) b)%string else snd r)) = Ok fmt ->
  exists ivs,
    fmt = (acc ++ joined ivs)%string /\ Chain prev b ivs /\
    map snd ivs = (filter (fun t => t <? b) it ++ [b])%list.
Proof.
  induction it as [|t it IH]; intros prev acc fmt S F L H.
  - simpl in H. replace (prev <=? b) with true in H by (symmetry; apply Z.leb_le; lia).
    injection H as <-. exists [(prev, b)]. repeat split. now constructor.
  - inversion S as [|? ? S' F']; subst. inversion F as [|? ? Lt Fp]; subst.
    rewrite Forall_forall in F'.
    cbn [partition_loop] in H. destruct (t <=? b) eqn:Etb.
    + apply Z.leb_le in Etb.
      replace (prev <=? t) with true in H by (symmetry; apply Z.leb_le; lia).
      destruct (t =? INT_MAX); [discriminate |].
      destruct (t <? b) eqn:Elt.
      * apply Z.ltb_lt in Elt.
        apply IH in H; auto; [| apply Forall_forall; intros u U; specialize (F' u U); lia | lia].
        destruct H as (ivs & -> & C & E).
        exists ((prev, t) :: ivs). split; [| split].
        -- rewrite (joined_cons _ _ _ (Chain_nonempty _ _ _ C)).
           now rewrite !app_assoc.
        -- now constructor.
        -- simpl. replace (t <? b) with true by (symmetry; apply Z.ltb_lt; lia).
           simpl. now rewrite E.
      * apply Z.ltb_ge in Elt. assert (t = b) by lia. subst t.
        rewrite loop_stops in H
          by (apply Forall_forall; intros u U; specialize (F' u U); lia).
        simpl in H. replace (b + 1 <=? b) with false in H by (symmetry; apply Z.leb_gt; lia).
        injection H as <-. exists [(prev, b)]. split; [| split].
        -- simpl. now rewrite app_nil_r.
        -- now constructor.
        -- simpl. rewrite Z.ltb_irrefl. rewrite filter_beyond; [reflexivity |].
           apply Forall_forall. intros u U. specialize (F' u U). lia.
    + apply Z.leb_gt in Etb. simpl in H.
      replace (prev <=? b) with true in H by (symmetry; apply Z.leb_le; lia).
      injection H as <-. exists [(prev, b)]. split; [| split].
      * reflexivity.
      * now constructor.
      * simpl. replace (t <? b) with false by (symmetry; apply Z.ltb_ge; lia).
        rewrite filter_beyond; [reflexivity |].
        apply Forall_forall. intros u U. specialize (F' u U). lia.
Qed.

(** The loop fails exactly when it comes to add one to [INT_MAX]. *)
Lemma loop_fails b : forall it prev acc f,
  StronglySorted Z.lt it ->
  (partition_loop it b prev acc = Fail f <->
   f = undefined /\ In INT_MAX it /\ INT_MAX <= b).
Proof.
  induction it as [|t it IH]; intros prev acc f S; cbn [partition_loop].
  - split; [discriminate | intros (_ & [] & _)].
  - inversion S as [|? ? S' F']; subst. rewrite Forall_forall in F'.
    destruct (t <=? b) eqn:Etb.
    + apply Z.leb_le in Etb. destruct (t =? INT_MAX) eqn:Em.
      * apply Z.eqb_eq in Em. subst t. split.
        -- intros H. injection H as <-. repeat split; [now left | exact Etb].
        -- intros (-> & _). reflexivity.
      * apply Z.eqb_neq in Em. rewrite IH by exact S'. simpl. split.
        -- intros (-> & I & L). auto.
        -- intros (-> & [E | I] & L); [congruence | auto].
    + apply Z.leb_gt in Etb. split; [discriminate |].
      intros (_ & [E | I] & L); [lia | specialize (F' _ I); lia].
Qed.

(** Property X1.  Whenever the replacement is built for bounds [a <= b], it
    is a conjunction of sub-intervals that cover [a, b] exactly: the first
    starts at [a], each further one starts one above the end of the one
    before, none is empty, the last ends at [b]; the ends are the partition
    points from [a] on and below [b], followed by [b].  The conjunction sign
    stands between consecutive conjuncts only. *)
Theorem sub_intervals_cover :
  forall partitionPoints a b fmt,
    a <= b ->
    build_replacement partitionPoints a b = Ok fmt ->
    exists ivs,
      fmt = joined ivs /\ Chain a b ivs /\
      map snd ivs = (cuts a b partitionPoints ++ [b])%list.
Proof.
  intros pts a b fmt L H. unfold build_replacement, lower_bound in H.
  pose proof (elements_sorted pts) as S.
  apply loop_chain in H; auto.
  - destruct H as (ivs & -> & C & E). exists ivs. repeat split; auto.
    unfold cuts. now rewrite <- not_less_than_filter.
  - now apply not_less_than_sorted'.
  - apply Forall_forall. intros t I. apply not_less_than_In in I; tauto.
Qed.

Lemma sub_intervals_cover_witness :
  3 <= 12 /\
  build_replacement example_points 3 12
    = Ok "G [3, 5] ((p2) U (p3)) ∧ G [6, 8] ((p2) U (p3)) ∧ G [9, 10] ((p2) U (p3)) ∧ G [11, 12] ((p2) U (p3)) " /\
  exists ivs,
    "G [3, 5] ((p2) U (p3)) ∧ G [6, 8] ((p2) U (p3)) ∧ G [9, 10] ((p2) U (p3)) ∧ G [11, 12] ((p2) U (p3)) "%string
      = joined ivs /\ Chain 3 12 ivs /\
    map snd ivs = (cuts 3 12 example_points ++ [12])%list.
Proof.
  assert (L : 3 <= 12) by lia.
  assert (H : build_replacement example_points 3 12
              = Ok "G [3, 5] ((p2) U (p3)) ∧ G [6, 8] ((p2) U (p3)) ∧ G [9, 10] ((p2) U (p3)) ∧ G [11, 12] ((p2) U (p3)) ")
    by (vm_compute; reflexivity).
  exact (conj L (conj H (sub_intervals_cover example_points 3 12 _ L H))).
Defined.

(** Property X2.  When the bounds of the first occurrence are inverted
    ([b < a]) the replacement text is empty, and the partitioner deletes
    every occurrence of the shape from the formula. *)
Theorem inverted_bounds_erase :
  forall formula partitionPoints pre m suf a b,
    regex_search gPattern formula = Some (pre, m, suf) ->
    bound m 1 = Ok a -> bound m 2 = Ok b -> b < a ->
    build_replacement partitionPoints a b = Ok ""%string /\
    exists out,
      partitionTemporalOperators formula partitionPoints = Ok out /\
      Rewritten "" None formula out.
Proof.
  intros formula pts pre m suf a b S Ba Bb L.
  assert (B : build_replacement pts a b = Ok ""%string).
  { unfold build_replacement, lower_bound. rewrite loop_stops.
    - simpl. now replace (a <=? b) with false by (symmetry; apply Z.leb_gt; lia).
    - apply Forall_forall. intros t I.
      apply not_less_than_In in I; [lia | apply elements_sorted]. }
  split; [exact B |].
  unfold partitionTemporalOperators. rewrite S, Ba, Bb. simpl. rewrite B. simpl.
  eexists. split; [reflexivity |].
  apply (Partitioner.substitute_Rewritten "" (String.length formula)).
  apply Nat.le_refl.
Qed.

Lemma inverted_bounds_erase_witness :
  let formula := "x and G [5, 3] ((p2) U (p3)) or y"%string in
  let m := {| whole := "G [5, 3] ((p2) U (p3))"; subs := ["5"; "3"]%string |} in
  regex_search gPattern formula = Some ("x and "%string, m, " or y"%string) /\
  bound m 1 = Ok 5 /\ bound m 2 = Ok 3 /\ 3 < 5 /\
  partitionTemporalOperators formula example_points = Ok "x and  or y"%string /\
  build_replacement example_points 5 3 = Ok ""%string.
Proof.
  intros formula m.
  assert (S : regex_search gPattern formula = Some ("x and "%string, m, " or y"%string))
    by (vm_compute; reflexivity).
  assert (Ba : bound m 1 = Ok 5) by (vm_compute; reflexivity).
  assert (Bb : bound m 2 = Ok 3) by (vm_compute; reflexivity).
  assert (L : 3 < 5) by lia.
  assert (P : partitionTemporalOperators formula example_points = Ok "x and  or y"%string)
    by (vm_compute; reflexivity).
  exact (conj S (conj Ba (conj Bb (conj L (conj P
           (proj1 (inverted_bounds_erase formula example_points _ m _ 5 3 S Ba Bb L))))))).
Defined.

(** Property X3.  Building the replacement has undefined behaviour exactly
    when [INT_MAX] is a partition point within the bounds: the loop then
    computes [INT_MAX + 1] in an [int].  In every other case a replacement
    text is returned. *)
Theorem replacement_overflows_at_int_max :
  forall partitionPoints a b f,
    build_replacement partitionPoints a b = Fail f <->
    f = undefined /\ ZS.In INT_MAX partitionPoints /\ a <= INT_MAX <= b.
Proof.
  intros pts a b f. unfold build_replacement, lower_bound.
  pose proof (elements_sorted pts) as S.
  destruct (partition_loop _ b a "") as [r|f'] eqn:H; simpl.
  - split; [discriminate |]. intros (-> & I & La & Lb).
    assert (F : partition_loop (not_less_than a (ZS.elements pts)) b a "" = Fail undefined).
    { apply loop_fails; [now apply not_less_than_sorted' |]. repeat split; auto.
      apply not_less_than_In; auto. split; [| exact La].
      apply ZS.elements_spec1 in I. apply InA_alt in I.
      destruct I as (y & <- & I). exact I. }
    congruence.
  - apply loop_fails in H; [| now apply not_less_than_sorted'].
    destruct H as (-> & I & Lb). apply not_less_than_In in I; auto.
    destruct I as [I La]. split.
    + intros E. injection E as <-. repeat split; auto.
      apply ZS.elements_spec1, InA_alt. now exists INT_MAX.
    + intros (-> & _). reflexivity.
Qed.

End Cover.

(* ================================================================== *)
(** * The nearest double of a decimal numeral *)

Module Division.

Import StrFacts.

Local Open Scope Z_scope.

Lemma digits2_size p : digits2_pos p = Pos.size p.
Proof. induction p; simpl; congruence. Qed.

Lemma digits_upper p : Zpos p < 2 ^ Zpos (digits2_pos p).
Proof.
  rewrite digits2_size. pose proof (Pos.size_gt p) as H.
  apply Pos2Z.pos_lt_pos in H. now rewrite Pos2Z.inj_pow in H.
Qed.

Lemma digits_lower p : 2 ^ (Zpos (digits2_pos p) - 1) <= Zpos p.
Proof.
  rewrite digits2_size. pose proof (Pos.size_le p) as H.
  apply Pos2Z.pos_le_pos in H. rewrite Pos2Z.inj_pow in H.
  replace (Zpos (Pos.size p)) with (Z.succ (Zpos (Pos.size p) - 1)) in H by lia.
  rewrite Z.pow_succ_r in H by lia. lia.
Qed.

Lemma Zdigits2_le x k : 0 <= x < 2 ^ k -> 0 <= k -> Zdigits2 x <= k.
Proof.
  intros [L U] K. destruct x as [|p|p]; simpl; [exact K | | lia].
  pose proof (digits_lower p) as D.
  assert (T : 2 ^ (Zpos (digits2_pos p) - 1) < 2 ^ k) by lia.
  apply Z.pow_lt_mono_r_iff in T; lia.
Qed.

Lemma shr_1_m mrs : 0 <= shr_m mrs -> shr_m (shr_1 mrs) = shr_m mrs / 2.
Proof.
  destruct mrs as [m r s]. simpl. intros L.
  destruct m as [|[p|p|]|p]; simpl; try reflexivity; try lia.
  - rewrite Pos2Z.inj_xI. apply Z.div_unique with 1; lia.
  - rewrite Pos2Z.inj_xO. apply Z.div_unique with 0; lia.
Qed.

Lemma div_pow2_twice x a b :
  0 <= a -> 0 <= b -> x / 2 ^ a / 2 ^ b = x / 2 ^ (a + b).
Proof.
  intros La Lb. rewrite Z.pow_add_r by lia.
  assert (Pa : 0 < 2 ^ a) by (apply Z.pow_pos_nonneg; lia).
  assert (Pb : 0 < 2 ^ b) by (apply Z.pow_pos_nonneg; lia).
  apply Z.div_div; lia.
Qed.

Lemma div_pow2_nonneg x k : 0 <= x -> 0 <= k -> 0 <= x / 2 ^ k.
Proof. intros Lx Lk. apply Z.div_pos; [exact Lx | apply Z.pow_pos_nonneg; lia]. Qed.

Lemma iter_shr_m p : forall mrs,
  0 <= shr_m mrs -> shr_m (iter_pos shr_1 p mrs) = shr_m mrs / 2 ^ Zpos p.
Proof.
  induction p as [p IH|p IH|]; intros mrs L; simpl iter_pos.
  - assert (L1 : 0 <= shr_m (shr_1 mrs)).
    { rewrite shr_1_m by auto. change 2 with (2 ^ 1). now apply div_pow2_nonneg. }
    assert (L2 : 0 <= shr_m (iter_pos shr_1 p (shr_1 mrs))).
    { rewrite IH by auto. now apply div_pow2_nonneg. }
    rewrite IH, IH, shr_1_m by auto.
    change (shr_m mrs / 2) with (shr_m mrs / 2 ^ 1).
    rewrite !div_pow2_twice by lia. f_equal. f_equal. lia.
  - assert (L2 : 0 <= shr_m (iter_pos shr_1 p mrs)).
    { rewrite IH by auto. now apply div_pow2_nonneg. }
    rewrite IH, IH by auto.
    rewrite div_pow2_twice by lia. f_equal. f_equal. lia.
  - rewrite shr_1_m by auto. reflexivity.
Qed.

Lemma shr_fexp_spec m e l mrs' e' :
  0 <= m -> shr_fexp prec emax m e l = (mrs', e') ->
  e' = Z.max e (fexp prec emax (Zdigits2 m + e)) /\
  shr_m mrs' = m / 2 ^ (e' - e).
Proof.
  intros L. unfold shr_fexp, shr.
  assert (M : shr_m (shr_record_of_loc m l) = m) by (destruct l as [|[| |]]; reflexivity).
  destruct (fexp prec emax (Zdigits2 m + e) - e) as [|p|p] eqn:D; intros H; injection H as <- <-.
  - split; [lia |]. rewrite M. replace (e - e) with 0 by lia. now rewrite Z.div_1_r.
  - split; [lia |]. rewrite iter_shr_m by (rewrite M; exact L). rewrite M.
    f_equal. f_equal. lia.
  - split; [lia |]. rewrite M. replace (e - e) with 0 by lia. now rewrite Z.div_1_r.
Qed.

Lemma round_nearest_even_bounds m l :
  m <= round_nearest_even m l <= m + 1.
Proof. destruct l as [|[| |]]; simpl; try lia. destruct (Z.even m); lia. Qed.

Lemma fexp_upper x k : x <= k + 53 -> -1074 <= k -> fexp prec emax x <= k.
Proof. unfold fexp, emin, prec, emax. lia. Qed.

Lemma shr_fexp_positive m e l mrs' e' :
  1 <= m -> -1074 <= e -> shr_fexp prec emax m e l = (mrs', e') ->
  1 <= shr_m mrs'.
Proof.
  intros L Le H. apply shr_fexp_spec in H; [| lia]. destruct H as [E ->].
  destruct m as [|p|p]; try lia.
  assert (S : e' - e <= Zpos (digits2_pos p) - 1).
  { rewrite E. simpl Zdigits2. unfold fexp, emin, prec, emax. lia. }
  pose proof (digits_lower p) as D.
  assert (T : 2 ^ (e' - e) <= 2 ^ (Zpos (digits2_pos p) - 1)).
  { apply Z.pow_le_mono_r; lia. }
  apply Z.div_le_lower_bound; [apply Z.pow_pos_nonneg; lia | lia].
Qed.

(** Rounding keeps the integer part: when at least 20 binary places below the
    unit are left free under the next integer, the nearest double lies in the
    same unit interval. *)
Lemma round_aux_truncation N q ex lx :
  0 <= N -> N + 1 <= 2 ^ 31 -> -1074 <= ex <= -22 -> 1 <= q ->
  N * 2 ^ (- ex) <= q <= (N + 1) * 2 ^ (- ex) - 2 ^ (- ex - 20) ->
  exists m e,
    binary_round_aux prec emax false q ex lx = S754_finite false m e /\
    e <= -22 /\ N * 2 ^ (- e) <= Zpos m < (N + 1) * 2 ^ (- e).
Proof.
  intros LN UN [Lex0 Lex] Q1 [Lq Uq].
  assert (P : forall k, 0 <= k -> 0 < 2 ^ k) by (intros; apply Z.pow_pos_nonneg; lia).
  assert (Split : forall a b, 0 <= a -> 0 <= b -> 2 ^ (a + b) = 2 ^ a * 2 ^ b)
    by (intros; apply Z.pow_add_r; lia).
  assert (Step : forall e1 e2 m,
            e1 <= e2 -> e2 <= -22 ->
            N * 2 ^ (- e1) <= m <= (N + 1) * 2 ^ (- e1) - 2 ^ (- e1 - 20) ->
            N * 2 ^ (- e2) <= m / 2 ^ (e2 - e1)
              <= (N + 1) * 2 ^ (- e2) - 2 ^ (- e2 - 20)).
  { intros e1 e2 m L1 L2 [Lm Um].
    pose proof (P (e2 - e1) ltac:(lia)) as Pb.
    pose proof (Split (- e2) (e2 - e1) ltac:(lia) ltac:(lia)) as S1.
    pose proof (Split (- e2 - 20) (e2 - e1) ltac:(lia) ltac:(lia)) as S2.
    replace (- e2 + (e2 - e1)) with (- e1) in S1 by lia.
    replace (- e2 - 20 + (e2 - e1)) with (- e1 - 20) in S2 by lia.
    rewrite S1, S2 in *. split.
    - apply Z.div_le_lower_bound; [exact Pb | lia].
    - apply Z.div_le_upper_bound; [exact Pb | lia]. }
  assert (Dig : forall e m,
            e <= -22 -> 0 <= m < (N + 1) * 2 ^ (- e) ->
            fexp prec emax (Zdigits2 m + e) <= -22).
  { intros e m Le [Lm Um]. apply fexp_upper; [| lia].
    assert (D : Zdigits2 m <= 31 - e); [| lia].
    apply Zdigits2_le; [| lia]. split; [exact Lm |].
    replace (31 - e) with (31 + - e) by lia. rewrite Split by lia.
    pose proof (P (- e) ltac:(lia)). nia. }
  assert (Small : forall e, e <= -22 -> 4 <= 2 ^ (- e - 20)).
  { intros e Le. change 4 with (2 ^ 2). apply Z.pow_le_mono_r; lia. }
  unfold binary_round_aux.
  destruct (shr_fexp prec emax q ex lx) as [mrs1 e1] eqn:S1.
  pose proof (shr_fexp_positive _ _ _ _ _ Q1 Lex0 S1) as Q2.
  apply shr_fexp_spec in S1; [| lia].
  destruct S1 as [E1 M1].
  assert (Le1 : ex <= e1 <= -22).
  { rewrite E1. split; [lia |]. apply Z.max_lub; [exact Lex |].
    apply Dig; [exact Lex |]. pose proof (P (- ex) ltac:(lia)).
    pose proof (P (- ex - 20) ltac:(lia)). split; nia. }
  pose proof (Step ex e1 q (proj1 Le1) (proj2 Le1) (conj Lq Uq)) as B1.
  rewrite <- M1 in B1.
  pose proof (round_nearest_even_bounds (shr_m mrs1) (loc_of_shr_record mrs1)) as R.
  set (M := round_nearest_even (shr_m mrs1) (loc_of_shr_record mrs1)) in *.
  pose proof (Small e1 (proj2 Le1)) as Sm.
  assert (BM : N * 2 ^ (- e1) <= M <= (N + 1) * 2 ^ (- e1) - 2 ^ (- e1 - 20) + 1) by lia.
  destruct (shr_fexp prec emax M e1 loc_Exact) as [mrs2 e2] eqn:S2.
  pose proof (P (- e1) ltac:(lia)) as Pe1.
  assert (Q3 : 1 <= shr_m mrs2)
    by (apply (shr_fexp_positive M e1 loc_Exact mrs2 e2); [lia | lia | exact S2]).
  apply shr_fexp_spec in S2; [| lia].
  destruct S2 as [E2 M2].
  assert (Le2 : e1 <= e2 <= -22).
  { rewrite E2. split; [lia |]. apply Z.max_lub; [lia |].
    apply Dig; [lia |]. split; nia. }
  assert (B2 : N * 2 ^ (- e2) <= shr_m mrs2 < (N + 1) * 2 ^ (- e2)).
  { rewrite M2.
    pose proof (P (e2 - e1) ltac:(lia)) as Pb.
    pose proof (Split (- e2) (e2 - e1) ltac:(lia) ltac:(lia)) as S1.
    replace (- e2 + (e2 - e1)) with (- e1) in S1 by lia.
    rewrite S1 in *. split.
    - apply Z.div_le_lower_bound; [exact Pb | lia].
    - apply Z.div_lt_upper_bound; [exact Pb | lia]. }
  pose proof (P (- e2) ltac:(lia)) as Pe2.
  destruct (shr_m mrs2) as [|m|m].
  - lia.
  - exists m, e2.
    replace (e2 <=? emax - prec) with true
      by (symmetry; apply Z.leb_le; unfold emax, prec; lia).
    split; [reflexivity |]. split; [lia | exact B2].
  - lia.
Qed.

Lemma div_core n d e' :
  e' = Z.min (fexp prec emax (Zpos (digits2_pos n) + 0 - (Zpos (digits2_pos d) + 0))) (0 - 0) ->
  e' < 0 ->
  SFdiv_core_binary prec emax (Zpos n) 0 (Zpos d) 0
  = (Zpos n * 2 ^ (- e') / Zpos d, e',
     new_location (Zpos d) (Zpos n * 2 ^ (- e') mod Zpos d)).
Proof.
  intros E L. unfold SFdiv_core_binary. simpl Zdigits2. rewrite <- E.
  destruct (0 - 0 - e') as [|p|p] eqn:S; try lia.
  rewrite Z.shiftl_mul_pow2 by lia. rewrite <- S.
  replace (0 - 0 - e') with (- e') by lia.
  unfold Z.div, Z.modulo.
  destruct (Z.div_eucl (Zpos n * 2 ^ (- e')) (Zpos d)) as [q r]. reflexivity.
Qed.

(** The double nearest to [n / d] has the integer part of [n / d], for a
    denominator of at most 20 bits and an integer part within [int]. *)
Lemma of_ratio_truncation n d :
  Zpos d <= 2 ^ 20 -> Zpos n / Zpos d <= INT_MAX ->
  exists m e,
    of_ratio n d = S754_finite false m e /\ e <= -22 /\
    Zpos n / Zpos d * 2 ^ (- e) <= Zpos m < (Zpos n / Zpos d + 1) * 2 ^ (- e).
Proof.
  intros Ld LN. set (N := Zpos n / Zpos d).
  assert (N0 : 0 <= N) by (apply Z.div_pos; lia).
  assert (N1 : N + 1 <= 2 ^ 31) by (unfold INT_MAX in LN; fold N in LN; lia).
  assert (Lo : Zpos d * N <= Zpos n) by (apply Z.mul_div_le; lia).
  assert (Hi : Zpos n < Zpos d * (N + 1)).
  { pose proof (Z.mul_succ_div_gt (Zpos n) (Zpos d) ltac:(lia)). fold N in H. lia. }
  set (e' := Z.min (fexp prec emax (Zpos (digits2_pos n) + 0 - (Zpos (digits2_pos d) + 0)))
                   (0 - 0)).
  assert (Le0 : -1074 <= e') by (unfold e', fexp, emin, prec, emax; lia).
  assert (Le : e' <= -22).
  { unfold e'. etransitivity; [apply Z.le_min_l |]. apply fexp_upper; [| lia].
    pose proof (digits_lower n) as Dn. pose proof (digits_upper d) as Dd.
    assert (T : 2 ^ (Zpos (digits2_pos n) - 1) < 2 ^ (31 + Zpos (digits2_pos d))).
    { rewrite (Z.pow_add_r 2 31) by lia.
      assert (0 < 2 ^ Zpos (digits2_pos d)) by (apply Z.pow_pos_nonneg; lia). nia. }
    apply Z.pow_lt_mono_r_iff in T; lia. }
  unfold of_ratio, SFdiv.
  rewrite (div_core n d e' eq_refl) by lia.
  change (xorb false false) with false.
  assert (P : 0 < 2 ^ (- e' - 20)) by (apply Z.pow_pos_nonneg; lia).
  assert (S : 2 ^ (- e') = 2 ^ (- e' - 20) * 2 ^ 20).
  { rewrite <- Z.pow_add_r by lia. f_equal. lia. }
  apply round_aux_truncation; auto.
  { apply Z.div_le_lower_bound; [lia |]. rewrite S. nia. }
  split.
  - apply Z.div_le_lower_bound; [lia | nia].
  - apply Z.div_le_upper_bound; [lia |]. rewrite S. nia.
Qed.

(** ** Decimal numerals *)

Lemma decimal_acc s : forall acc,
  decimal acc s = acc * 10 ^ Z.of_nat (String.length s) + decimal 0 s.
Proof.
  induction s as [|c s IH]; intros acc.
  - simpl. lia.
  - change (decimal acc (String c s))
      with (decimal (10 * acc + (Z.of_nat (code c) - 48)) s).
    change (decimal 0 (String c s))
      with (decimal (10 * 0 + (Z.of_nat (code c) - 48)) s).
    rewrite (IH (10 * acc + _)), (IH (10 * 0 + _)).
    change (String.length (String c s)) with (S (String.length s)).
    rewrite Nat2Z.inj_succ, Z.pow_succ_r by lia. lia.
Qed.

Lemma decimal_bounds s :
  all is_digit s = true -> 0 <= decimal 0 s < 10 ^ Z.of_nat (String.length s).
Proof.
  induction s as [|c s IH]; intros H.
  - simpl. lia.
  - simpl all in H. apply andb_true_iff in H. destruct H as [Hc Hs]. specialize (IH Hs).
    change (decimal 0 (String c s))
      with (decimal (10 * 0 + (Z.of_nat (code c) - 48)) s).
    change (String.length (String c s)) with (S (String.length s)).
    rewrite decimal_acc, Nat2Z.inj_succ, Z.pow_succ_r by lia.
    unfold is_digit, between in Hc. apply andb_true_iff in Hc.
    destruct Hc as [L U]. apply Nat.leb_le in L, U. nia.
Qed.

Lemma decimal_app a b :
  decimal 0 (a ++ b) = decimal 0 a * 10 ^ Z.of_nat (String.length b) + decimal 0 b.
Proof.
  assert (G : forall acc, decimal acc (a ++ b) = decimal (decimal acc a) b).
  { induction a as [|c a IH]; intros acc; simpl; [reflexivity | apply IH]. }
  rewrite G. apply decimal_acc.
Qed.

Lemma pow10_spec k : Zpos (pow10 k) = 10 ^ Z.of_nat k.
Proof.
  induction k as [|k IH]; [reflexivity |].
  change (pow10 (S k)) with (10 * pow10 k)%positive.
  rewrite Pos2Z.inj_mul, IH, Nat2Z.inj_succ, Z.pow_succ_r by lia. lia.
Qed.

Lemma take_while_run p a b :
  all p a = true -> stops p b -> take_while p (a ++ b) = a /\ drop_while p (a ++ b) = b.
Proof.
  intros Ha Hb.
  apply (span_unique p (take_while p (a ++ b)) a (drop_while p (a ++ b)) b);
    auto using take_drop_while, all_take_while, stops_drop_while.
Qed.

(** A numeral with at most six digits after the period and an integer part
    within [int] is read by [std::stod] as a double whose truncation is the
    integer part. *)
Lemma stod_numeral s ip fp :
  numeral s ip fp -> (String.length fp <= 6)%nat -> decimal 0 ip <= INT_MAX ->
  exists x, stod s = Ok x /\ to_int x = Ok (decimal 0 ip).
Proof.
  intros (Hi & Hf & Ne & Shape) Lf Li.
  assert (Parts : take_while is_digit s = ip /\
                  match drop_while is_digit s with
                  | String "."%char r => take_while is_digit r
                  | _ => EmptyString
                  end = fp).
  { destruct Shape as [-> | [-> ->]].
    - destruct (take_while_run is_digit ip ("." ++ fp) Hi eq_refl) as [-> ->].
      split; [reflexivity |]. simpl.
      destruct (take_while_run is_digit fp "" Hf I) as [T _].
      now rewrite app_nil_r in T.
    - destruct (take_while_run is_digit ip "" Hi I) as [T D].
      rewrite app_nil_r in T, D. now rewrite T, D. }
  destruct Parts as [Pi Pf]. unfold stod. rewrite Pi, Pf.
  destruct (ip ++ fp) as [|c0 ds] eqn:D; [congruence |]. rewrite <- D.
  pose proof (decimal_app ip fp) as A.
  pose proof (decimal_bounds ip Hi) as Bi. pose proof (decimal_bounds fp Hf) as Bf.
  set (k := Z.of_nat (String.length fp)) in *.
  assert (K : 1 <= 10 ^ k <= 2 ^ 20).
  { split; [pose proof (Z.pow_pos_nonneg 10 k); lia |].
    transitivity (10 ^ 6); [apply Z.pow_le_mono_r; lia | now vm_compute]. }
  destruct (decimal 0 (ip ++ fp)) as [|n|n] eqn:V; try lia.
  - exists (S754_zero false). split; [reflexivity |]. simpl. f_equal. nia.
  - cbv zeta.
    assert (Q : Zpos n / Zpos (pow10 (String.length fp)) = decimal 0 ip).
    { rewrite pow10_spec. fold k. symmetry.
      apply Z.div_unique with (decimal 0 fp); lia. }
    destruct (of_ratio_truncation n (pow10 (String.length fp))) as (m & e & R & Le & B).
    { rewrite pow10_spec. fold k. lia. }
    { now rewrite Q. }
    rewrite Q in B. rewrite R.
    assert (T : tiny n (pow10 (String.length fp)) = false).
    { unfold tiny. apply Z.ltb_ge. rewrite pow10_spec. fold k.
      transitivity (2 ^ 54 * 2 ^ 20); [nia |].
      transitivity (1 * 2 ^ 1076); [| nia].
      rewrite <- Z.pow_add_r by lia. rewrite Z.mul_1_l. apply Z.pow_le_mono_r; lia. }
    rewrite T. simpl andb. cbv iota.
    exists (S754_finite false m e). split; [reflexivity |].
    unfold to_int, magnitude_floor, cond_Zopp.
    replace (0 <=? e) with false by (symmetry; apply Z.leb_gt; lia).
    assert (P : 0 < 2 ^ (- e)) by (apply Z.pow_pos_nonneg; lia).
    assert (F : Zpos m / 2 ^ (- e) = decimal 0 ip).
    { symmetry. apply Z.div_unique with (Zpos m - decimal 0 ip * 2 ^ (- e)); lia. }
    rewrite F.
    replace ((INT_MIN <=? decimal 0 ip) && (decimal 0 ip <=? INT_MAX)) with true;
      [reflexivity |].
    symmetry. apply andb_true_iff. split; apply Z.leb_le; unfold INT_MIN; lia.
Qed.

End Division.

(* ================================================================== *)
(** * The bounds the partitioner computes with *)

Module Truncation.

Import StrFacts.

Local Open Scope Z_scope.

(** The replacement text for bounds [a] and [b]: undefined behaviour needs
    the partition point [INT_MAX]; otherwise a text of conjuncts, the cover
    of [a, b] when [a <= b] and the empty text when [b < a]. *)
Lemma replacement_cases partitionPoints a b :
  0 <= a -> 0 <= b ->
  (build_replacement partitionPoints a b = Fail undefined /\
   ZS.In INT_MAX partitionPoints) \/
  exists fmt,
    build_replacement partitionPoints a b = Ok fmt /\ Conjuncts fmt /\
    (a <= b -> exists ivs, fmt = joined ivs /\ Chain a b ivs /\
                           map snd ivs = (cuts a b partitionPoints ++ [b])%list) /\
    (b < a -> fmt = ""%string).
Proof.
  intros La Lb. pose proof (Cover.elements_sorted partitionPoints) as S.
  destruct (build_replacement partitionPoints a b) as [fmt|f] eqn:H.
  - right. exists fmt. split; [reflexivity |]. split; [| split].
    + now apply (Bounds.build_replacement_shape partitionPoints a b).
    + intros L. unfold build_replacement, lower_bound in H.
      apply Cover.loop_chain in H; auto.
      * destruct H as (ivs & -> & C & E). exists ivs. repeat split; auto.
        unfold cuts. now rewrite <- Cover.not_less_than_filter.
      * now apply Cover.not_less_than_sorted'.
      * apply Forall_forall. intros t I. apply Cover.not_less_than_In in I; tauto.
    + intros L. unfold build_replacement, lower_bound in H.
      rewrite Cover.loop_stops in H.
      * simpl in H. replace (a <=? b) with false in H by (symmetry; apply Z.leb_gt; lia).
        now injection H.
      * apply Forall_forall. intros t I. apply Cover.not_less_than_In in I; [lia | exact S].
  - left. unfold build_replacement, lower_bound in H.
    destruct (partition_loop _ b a "") as [r|f'] eqn:Lp; simpl in H; [discriminate |].
    injection H as <-.
    apply Cover.loop_fails in Lp; [| now apply Cover.not_less_than_sorted'].
    destruct Lp as (-> & I & _). split; [reflexivity |].
    apply Cover.not_less_than_In in I; auto.
    apply ZS.elements_spec1, InA_alt. exists INT_MAX. tauto.
Qed.

(** Claim C10, amended.  For every formula whose first occurrence has bounds
    written as decimal numerals with at most six digits after the period and
    an integer part of at most [INT_MAX], the partitioner computes with the
    integer parts of the written bounds, that is, with the written numbers
    truncated toward zero: unless [INT_MAX] is a partition point, it returns
    the formula with every occurrence replaced by a text of conjuncts whose
    boundaries are integer numerals, the cover of the truncated interval.
    The bounds [0.5] and [20.9] are treated as [0] and [20].  Seven digits
    after the period are too many at [INT_MAX], and a bound beyond [INT_MAX]
    has no defined conversion. *)
Theorem written_bounds_are_truncated :
  forall formula partitionPoints pre m suf ip1 fp1 ip2 fp2,
    regex_search gPattern formula = Some (pre, m, suf) ->
    numeral (nth 0 (subs m) "") ip1 fp1 -> numeral (nth 1 (subs m) "") ip2 fp2 ->
    (String.length fp1 <= 6)%nat -> (String.length fp2 <= 6)%nat ->
    decimal 0 ip1 <= INT_MAX -> decimal 0 ip2 <= INT_MAX ->
    let a := decimal 0 ip1 in
    let b := decimal 0 ip2 in
    bound m 1 = Ok a /\ bound m 2 = Ok b /\
    ((partitionTemporalOperators formula partitionPoints = Fail undefined /\
      ZS.In INT_MAX partitionPoints) \/
     exists fmt out,
       build_replacement partitionPoints a b = Ok fmt /\
       partitionTemporalOperators formula partitionPoints = Ok out /\
       Rewritten fmt None formula out /\ Conjuncts fmt /\
       (a <= b -> exists ivs, fmt = joined ivs /\ Chain a b ivs /\
                              map snd ivs = (cuts a b partitionPoints ++ [b])%list) /\
       (b < a -> fmt = ""%string)) /\
    partitionTemporalOperators "G [0.5, 20.9] ((p2) U (p3))" example_points
      = Ok (joined [(0, 5); (6, 8); (9, 10); (11, 15); (16, 20)]) /\
    partitionTemporalOperators "G [0, 2147483647.9999999] ((p2) U (p3))" example_points
      = Fail undefined /\
    partitionTemporalOperators "G [0, 3000000000.5] ((p2) U (p3))" example_points
      = Fail undefined.
Proof.
  intros formula pts pre m suf ip1 fp1 ip2 fp2 S N1 N2 L1 L2 I1 I2 a b.
  destruct (Division.stod_numeral _ _ _ N1 L1 I1) as (x1 & S1 & T1).
  destruct (Division.stod_numeral _ _ _ N2 L2 I2) as (x2 & S2 & T2).
  assert (Ba : bound m 1 = Ok a) by (unfold bound; simpl Nat.sub; now rewrite S1).
  assert (Bb : bound m 2 = Ok b) by (unfold bound; simpl Nat.sub; now rewrite S2).
  split; [exact Ba |]. split; [exact Bb |]. split; [| vm_compute; auto].
  unfold partitionTemporalOperators. rewrite S, Ba, Bb. simpl bind.
  destruct (replacement_cases pts a b) as [[F I] | (fmt & R & C & Cov & Emp)];
    eauto using Bounds.bound_nonneg.
  - left. now rewrite F.
  - right. exists fmt. rewrite R. simpl bind. unfold regex_replace.
    rewrite (Adequacy.conjuncts_no_dollar _ C).
    eexists. split; [reflexivity |]. split; [reflexivity |].
    split; [| auto].
    apply (Partitioner.substitute_Rewritten fmt (String.length formula)).
    apply Nat.le_refl.
Qed.

Lemma written_bounds_are_truncated_witness :
  let formula := "x and G [0.5, 12.25] ((p2) U (p3))"%string in
  let m := {| whole := "G [0.5, 12.25] ((p2) U (p3))"; subs := ["0.5"; "12.25"]%string |} in
  regex_search gPattern formula = Some ("x and "%string, m, ""%string) /\
  numeral "0.5" "0" "5" /\ numeral "12.25" "12" "25" /\
  (String.length "5" <= 6)%nat /\ (String.length "25" <= 6)%nat /\
  decimal 0 "0" <= INT_MAX /\ decimal 0 "12" <= INT_MAX /\
  bound m 1 = Ok 0 /\ bound m 2 = Ok 12 /\
  partitionTemporalOperators formula example_points
    = Ok ("x and " ++ joined [(0, 5); (6, 8); (9, 10); (11, 12)])%string.
Proof.
  intros formula m.
  assert (S : regex_search gPattern formula = Some ("x and "%string, m, ""%string))
    by (vm_compute; reflexivity).
  assert (N1 : numeral "0.5" "0" "5") by (repeat split; [discriminate | now left]).
  assert (N2 : numeral "12.25" "12" "25") by (repeat split; [discriminate | now left]).
  assert (L1 : (String.length "5" <= 6)%nat) by (simpl; lia).
  assert (L2 : (String.length "25" <= 6)%nat) by (simpl; lia).
  assert (I1 : decimal 0 "0" <= INT_MAX) by (vm_compute; discriminate).
  assert (I2 : decimal 0 "12" <= INT_MAX) by (vm_compute; discriminate).
  assert (P : partitionTemporalOperators formula example_points
              = Ok ("x and " ++ joined [(0, 5); (6, 8); (9, 10); (11, 12)])%string)
    by (vm_compute; reflexivity).
  destruct (written_bounds_are_truncated formula example_points _ m _
              "0" "5" "12" "25" S N1 N2 L1 L2 I1 I2) as (Ba & Bb & _).
  exact (conj S (conj N1 (conj N2 (conj L1 (conj L2 (conj I1 (conj I2
           (conj Ba (conj Bb P))))))))).
Defined.

(** Claim C10 as stated fails on the code.  The bound is the truncation of
    the double nearest to the written number, not of the written number: on
    [G [0.5, 20.99999999999999999999] ((p2) U (p3))] the second bound is
    read as the double 21, and the partitioner computes with 21, not 20. *)
Lemma written_bound_is_not_truncated :
  ~ truncates_the_written_bounds
      "G [0.5, 20.99999999999999999999] ((p2) U (p3))" example_points.
Proof.
  intros H.
  specialize (H ""%string
                {| whole := "G [0.5, 20.99999999999999999999] ((p2) U (p3))";
                   subs := ["0.5"; "20.99999999999999999999"]%string |} ""%string
                "0" "5" "20" "99999999999999999999"
                ltac:(vm_compute; reflexivity)).
  assert (N1 : numeral "0.5" "0" "5") by (repeat split; [discriminate | now left]).
  assert (N2 : numeral "20.99999999999999999999" "20" "99999999999999999999")
    by (repeat split; [discriminate | now left]).
  specialize (H N1 ltac:(vm_compute; discriminate) N2 ltac:(vm_compute; discriminate)).
  vm_compute in H. discriminate.
Qed.

End Truncation.

(* ================================================================== *)
(** * The partition points are the changes of the signal *)

Module Changes.

Lemma vector_bool_eqb_spec u v : vector_bool_eqb u v = true <-> u = v.
Proof.
  unfold vector_bool_eqb. destruct (list_eq_dec bool_dec u v); split; congruence.
Qed.

Lemma partitions_from_spec : forall signal before acc partitionPoints,
  partitions_from before signal acc = Ok partitionPoints ->
  forall p, ZS.In p partitionPoints <->
            ZS.In p acc \/ exists i, change_at (before :: signal) i p.
Proof.
  induction signal as [|here signal IH]; intros before acc pts H p; simpl in H.
  - injection H as <-. split; [auto |].
    intros [I | (i & b & h & _ & Hh & _)]; [exact I |].
    destruct i; discriminate.
  - destruct (vector_bool_eqb (snd here) (snd before)) eqn:E.
    + apply vector_bool_eqb_spec in E. rewrite (IH _ _ _ H). split.
      * intros [I | (i & C)]; [auto |]. right. exists (S i).
        destruct C as (b & h & Hb & Hh & N & R). now exists b, h.
      * intros [I | (i & b & h & Hb & Hh & N & R)]; [auto |].
        destruct i as [|i]; simpl in Hb, Hh.
        -- injection Hb as <-. injection Hh as <-. congruence.
        -- right. exists i, b, h. auto.
    + assert (N : snd here <> snd before).
      { intros Q. apply vector_bool_eqb_spec in Q. congruence. }
      destruct (to_int (round (fst here))) as [q|] eqn:R; simpl in H; [| discriminate].
      rewrite (IH _ _ _ H), ZS.add_spec. split.
      * intros [[-> | I] | (i & C)]; [| auto |].
        -- right. exists 0%nat, before, here. auto.
        -- right. exists (S i). destruct C as (b & h & Hb & Hh & N' & R').
           now exists b, h.
      * intros [I | (i & b & h & Hb & Hh & N' & R')]; [auto |].
        destruct i as [|i]; simpl in Hb, Hh.
        -- injection Hb as <-. injection Hh as <-. left. left. congruence.
        -- right. exists i, b, h. auto.
Qed.

(** Property X4.  Whenever [constructStablePartitions] returns, its set holds
    exactly the rounded times of the samples whose truth values differ from
    those of the sample before: every change contributes its point, and
    nothing else is in the set.  A signal without two consecutive samples that
    differ (an empty, one-sample or constant signal) yields the empty set. *)
Theorem partition_points_are_the_changes :
  forall signal partitionPoints,
    constructStablePartitions signal = Ok partitionPoints ->
    (forall p, ZS.In p partitionPoints <-> exists i, change_at signal i p) /\
    ((forall i before here,
        nth_error signal i = Some before -> nth_error signal (S i) = Some here ->
        snd here = snd before) ->
     ZS.elements partitionPoints = []).
Proof.
  intros signal pts H.
  assert (Spec : forall p, ZS.In p pts <-> exists i, change_at signal i p).
  { destruct signal as [|first signal]; simpl in H.
    - injection H as <-. intros p. split.
      + intros I. apply ZS.empty_spec in I. contradiction.
      + intros (i & b & h & Hb & _). destruct i; discriminate.
    - intros p. rewrite (partitions_from_spec _ _ _ _ H). split; [| auto].
      intros [I | C]; [| exact C]. apply ZS.empty_spec in I. contradiction. }
  split; [exact Spec |].
  intros Const. destruct (ZS.elements pts) as [|p l] eqn:E; [reflexivity |].
  exfalso. assert (I : ZS.In p pts).
  { assert (A : InA Z.eq p (ZS.elements pts)) by (rewrite E; now constructor).
    now apply ZS.elements_spec1 in A. }
  apply Spec in I. destruct I as (i & b & h & Hb & Hh & N & _).
  apply N. now apply (Const i).
Qed.

Lemma partition_points_are_the_changes_witness :
  let signal := [(of_int 0, [true; false]); (of_int 1, [true; false]);
                 (of_int 2, [false; false]); (of_int 3, [false; true])] in
  exists partitionPoints,
    constructStablePartitions signal = Ok partitionPoints /\
    ZS.elements partitionPoints = [2; 3]%Z /\
    forall p, ZS.In p partitionPoints <-> exists i, change_at signal i p.
Proof.
  intros signal.
  destruct (constructStablePartitions signal) as [pts|] eqn:H;
    [| vm_compute in H; discriminate].
  exists pts. split; [reflexivity |]. split.
  - assert (E : option_map ZS.elements
                  (match constructStablePartitions signal with
                   | Ok s => Some s | Fail _ => None end) = Some [2; 3]%Z)
      by (vm_compute; reflexivity).
    rewrite H in E. simpl in E. now injection E.
  - exact (proj1 (partition_points_are_the_changes signal pts H)).
Defined.

End Changes.

(* ================================================================== *)
(** * The names in the proposition map *)

Module Names.

Lemma fill_map_In key : forall atomicProps i propMap,
  SM.In key (fill_map atomicProps i propMap) <->
  In key atomicProps \/ SM.In key propMap.
Proof.
  induction atomicProps as [|p rest IH]; intros i propMap; simpl; [tauto |].
  rewrite IH, SMF.add_in_iff. tauto.
Qed.

(** [std::to_string] tells integers apart. *)
Lemma to_string_inj (u v : Z) : to_string u = to_string v -> u = v.
Proof.
  unfold to_string. intros E. apply DecimalZ.to_int_inj.
  assert (N : forall w, Z.to_int w <> Decimal.Pos Decimal.Nil /\
                        Z.to_int w <> Decimal.Neg Decimal.Nil).
  { intros [|p|p]; simpl; split; try discriminate; intros Q; injection Q;
      apply DecimalPos.Unsigned.to_uint_nonnil. }
  apply (f_equal NilZero.int_of_string) in E.
  rewrite !NilZero.isi in E by apply N. now injection E.
Qed.

Lemma boolean_name_inj i j : boolean_name i = boolean_name j -> i = j.
Proof.
  unfold boolean_name. intros E. injection E as E.
  apply to_string_inj in E. lia.
Qed.

(** Property X5.  The keys of the map built by [main] are exactly the
    extracted proposition texts: every extracted text has a name, and nothing
    else is in the map; the map of a formula without propositions is empty. *)
Theorem map_keys_are_the_extracted_texts :
  forall atomicProps key,
    (SM.In key (build_map atomicProps) <-> In key atomicProps) /\
    (SM.find key (build_map atomicProps) = None <-> ~ In key atomicProps).
Proof.
  intros atomicProps key.
  assert (D : SM.In key (build_map atomicProps) <-> In key atomicProps).
  { unfold build_map. rewrite fill_map_In, SMF.empty_in_iff. tauto. }
  split; [exact D |].
  rewrite <- D, SMF.not_find_in_iff. tauto.
Qed.

(** Property X6.  Different proposition texts never share a Boolean name:
    the map built by [main] is one-to-one. *)
Theorem names_are_distinct :
  forall atomicProps key1 key2 name1 name2,
    key1 <> key2 ->
    SM.find key1 (build_map atomicProps) = Some name1 ->
    SM.find key2 (build_map atomicProps) = Some name2 ->
    name1 <> name2.
Proof.
  intros atomicProps key1 key2 name1 name2 N H1 H2 E. subst name2.
  unfold build_map in *.
  apply PropMap.fill_map_binding in H1, H2.
  destruct H1 as [(i & Hi & E1) | H1]; [| rewrite SMF.empty_o in H1; discriminate].
  destruct H2 as [(j & Hj & E2) | H2]; [| rewrite SMF.empty_o in H2; discriminate].
  rewrite E1 in E2. apply boolean_name_inj in E2. simpl in E2. subst j. congruence.
Qed.

Lemma names_are_distinct_witness :
  "y < 2" <> "z > 1" /\
  SM.find "y < 2" (build_map ["y < 2"; "z > 1"; "y < 2"]) = Some "p3" /\
  SM.find "z > 1" (build_map ["y < 2"; "z > 1"; "y < 2"]) = Some "p2" /\
  "p3" <> "p2".
Proof.
  assert (N : "y < 2" <> "z > 1") by discriminate.
  exact (conj N (conj eq_refl (conj eq_refl
          (names_are_distinct ["y < 2"; "z > 1"; "y < 2"] "y < 2" "z > 1" "p3" "p2"
             N eq_refl eq_refl)))).
Defined.

End Names.

(* ================================================================== *)
(** * One substitution of the renamer *)

Module Substitution.

Import StrFacts RegexFacts.

Lemma agree_length : forall key m, agree key m = true -> String.length m = String.length key.
Proof.
  induction key as [|a key IH]; intros [|b m]; simpl; try discriminate; auto.
  intros H. apply andb_true_iff in H. f_equal. apply IH. tauto.
Qed.

(** Without a period the key agrees with itself only. *)
Lemma agree_literal : forall key m,
  contains_char "." key = false -> agree key m = true -> m = key.
Proof.
  induction key as [|a key IH]; intros [|b m]; simpl; try discriminate; auto.
  unfold contains_char. simpl. intros D H.
  apply negb_false_iff, andb_true_iff in D. destruct D as [Da D].
  apply andb_true_iff in H. destruct H as [Hc H].
  apply negb_true_iff in Da. rewrite Da in Hc. apply Ascii.eqb_eq in Hc. subst b.
  f_equal. apply IH; [| exact H]. unfold contains_char. now rewrite D.
Qed.

Lemma Matches_items_inv re : forall key prev m rest,
  Matches (items_of key ++ re)%list prev m rest ->
  exists m1 m2, m = (m1 ++ m2)%string /\ agree key m1 = true /\
                Matches re (last_char prev m1) m2 rest.
Proof.
  induction key as [|a key IH]; intros prev m rest H; simpl in H.
  - exists "", m. auto.
  - apply Extractor.Matches_cons_inv in H. destruct H as (c1 & t & -> & Hc & H).
    apply Extractor.MatchItem_one_inv in Hc. destruct Hc as (c & -> & Pc).
    apply IH in H. destruct H as (m1 & m2 & -> & A & H).
    exists (String c m1), m2. simpl. repeat split; [| exact H].
    rewrite A, andb_true_r. destruct (Ascii.eqb a "."); [exact Pc |].
    unfold is_char in Pc. exact Pc.
Qed.

Lemma MatchItem_bnd_inv prev m rest :
  MatchItem Bnd prev m rest -> m = "" /\ word_boundary prev rest = true.
Proof. inversion 1; subst. auto. Qed.

Lemma key_Matches key prev m rest :
  Matches (Bnd :: items_of key ++ [Bnd])%list prev m rest -> word_here key prev m rest.
Proof.
  intros H. apply Extractor.Matches_cons_inv in H. destruct H as (e & t & -> & Hb & H).
  apply MatchItem_bnd_inv in Hb. destruct Hb as [-> B1]. simpl in *.
  apply Matches_items_inv in H. destruct H as (m1 & m2 & -> & A & H).
  apply Extractor.Matches_cons_inv in H. destruct H as (e & t & -> & Hb & H).
  apply MatchItem_bnd_inv in Hb. destruct Hb as [-> B2].
  apply Extractor.Matches_nil_inv in H. subst t. simpl in *.
  rewrite app_nil_r in *. repeat split; auto.
Qed.

Lemma key_match key prev m r :
  word_here key prev m r ->
  match_at false (Bnd :: items_of key ++ [Bnd])%list prev (m ++ r)
  = Some ({| whole := m; subs := [] |}, r).
Proof.
  intros (A & B1 & B2). unfold match_at. simpl run. rewrite B1.
  rewrite (Renamer.run_items _ _ _ _ _ _ _ A).
  simpl. rewrite B2. now rewrite consumed_app.
Qed.

Lemma key_min_len key :
  min_len (Bnd :: items_of key ++ [Bnd])%list = String.length key.
Proof.
  change (Bnd :: items_of key ++ [Bnd])%list with ([Bnd] ++ items_of key ++ [Bnd])%list.
  rewrite !min_len_app, Renamer.min_len_items. unfold min_len. simpl. lia.
Qed.

Lemma substitute_Renamed key name :
  key <> "" -> forall n s prev,
  String.length s <= n ->
  Renamed key name prev s
    (substitute name (scan (Bnd :: items_of key ++ [Bnd])%list prev s 0)).
Proof.
  intros N.
  assert (L : 0 < min_len (Bnd :: items_of key ++ [Bnd])%list).
  { rewrite key_min_len. destruct key; [congruence | simpl; lia]. }
  induction n as [|n IH]; intros s prev Ls; rewrite (scan_unfold _ _ _ L).
  - destruct s; simpl in Ls; [| lia]. rewrite (match_at_empty _ _ _ L). constructor.
  - destruct (match_at false _ prev s) as [[m rest]|] eqn:H.
    + destruct (match_at_nonempty _ _ _ _ _ _ L H) as (c & m' & E).
      apply match_at_sound in H. destruct H as [-> H].
      simpl substitute. constructor.
      * now apply key_Matches.
      * apply IH. rewrite E in Ls. simpl in Ls. rewrite length_app in Ls. lia.
    + destruct s as [|c s]; [constructor |].
      simpl substitute. constructor.
      * intros m r E W. apply key_match in W. rewrite <- E in W. congruence.
      * apply IH. simpl in Ls. lia.
Qed.

(** Property X7.  One turn of the renamer's loop, for a key that is a
    non-empty text of ordinary characters and periods and a name without [$]:
    reading the formula from the left, it replaces by the name exactly the
    texts that stand between two word boundaries and agree with the key
    character by character, a period of the key agreeing with any character
    but a line terminator; every other character is kept.  For a key without
    period only the exact whole-word occurrences of the key are replaced. *)
Theorem substitution_is_whole_word :
  forall key name formula,
    plain key = true -> key <> "" -> contains_char "$" name = false ->
    (exists out, rename_step formula (key, name) = Ok out /\
                 Renamed key name None formula out) /\
    (contains_char "." key = false ->
     forall prev m r, word_here key prev m r -> m = key).
Proof.
  intros key name formula P N D. split.
  - unfold rename_step, word_regex, regex_replace. simpl fst. simpl snd.
    rewrite (Renamer.plain_key_items _ P). simpl bind. rewrite D.
    eexists. split; [reflexivity |].
    apply (substitute_Renamed key name N (String.length formula)). apply Nat.le_refl.
  - intros Dot prev m r (A & _). now apply agree_literal.
Qed.

Lemma substitution_is_whole_word_witness :
  plain "y < 2" = true /\ "y < 2" <> "" /\ contains_char "$" "p1" = false /\
  rename_step "y < 2 and xy < 2 and y < 25" ("y < 2", "p1")
    = Ok "p1 and xy < 2 and y < 25" /\
  exists out, rename_step "y < 2 and xy < 2 and y < 25" ("y < 2", "p1") = Ok out /\
              Renamed "y < 2" "p1" None "y < 2 and xy < 2 and y < 25" out.
Proof.
  assert (N : "y < 2" <> "") by discriminate.
  exact (conj eq_refl (conj N (conj eq_refl (conj eq_refl
          (proj1 (substitution_is_whole_word "y < 2" "p1" "y < 2 and xy < 2 and y < 25"
                    eq_refl N eq_refl)))))).
Defined.

End Substitution.

(* ================================================================== *)
(** * Extraction and renaming together *)

Module Together.

Import StrFacts RegexFacts.

Lemma Extracts_facts s ms :
  Extracts s ms ->
  Forall (fun key => occurs key s /\ is_prop key) ms /\
  list_sum (map String.length ms) <= String.length s.
Proof.
  induction 1 as [|c s ms N _ [IHo IHl]|m r ms P L _ [IHo IHl]].
  - split; [constructor | simpl; lia].
  - split; [| simpl; lia].
    apply Forall_forall. intros key I. rewrite Forall_forall in IHo.
    destruct (IHo key I) as [(pre & post & ->) Pk]. split; [| exact Pk].
    now exists (String c pre), post.
  - split; [| simpl; rewrite length_app; lia].
    constructor.
    + split; [now exists "", r | exact P].
    + apply Forall_forall. intros key I. rewrite Forall_forall in IHo.
      destruct (IHo key I) as [(pre & post & ->) Pk]. split; [| exact Pk].
      exists (m ++ pre)%string, post. now rewrite app_assoc.
Qed.

(** Property X8.  The entries the extractor returns lie in the text one
    after the other without overlapping: each of them occurs in the text, and
    their lengths add up to no more than the length of the text.  Each entry
    has the shape identifier, operator, number, hence at least three
    characters, and, read as a pattern by the renamer, holds no special
    character other than the period. *)
Theorem extracted_entries :
  forall s,
    Forall (fun key => occurs key s /\ is_prop key /\ plain key = true /\
                       3 <= String.length key)
           (extractAtomicPropositions s) /\
    list_sum (map String.length (extractAtomicPropositions s)) <= String.length s /\
    3 * List.length (extractAtomicPropositions s) <= String.length s.
Proof.
  intros s. destruct (Extracts_facts _ _ (Extractor.extract_Extracts s)) as [F L].
  assert (G : Forall (fun key => occurs key s /\ is_prop key /\ plain key = true /\
                                 3 <= String.length key)
                     (extractAtomicPropositions s)).
  { apply Forall_forall. intros key I. rewrite Forall_forall in F.
    destruct (F key I) as [O P]. repeat split; auto.
    - now apply Extractor.is_prop_plain.
    - now apply Renamer.is_prop_length. }
  split; [exact G |]. split; [exact L |].
  assert (T : 3 * List.length (extractAtomicPropositions s)
              <= list_sum (map String.length (extractAtomicPropositions s))).
  { clear F L. induction G as [|key l (_ & _ & _ & K) _ IH]; simpl; lia. }
  lia.
Qed.

(** A proposition given as the whole text is extracted whole. *)
Lemma extract_proposition m : is_prop m -> extractAtomicPropositions m = [m].
Proof.
  intros P. symmetry. apply (Extractor.Extracts_unique m); [| apply Extractor.extract_Extracts].
  rewrite <- (app_nil_r m) at 1. constructor; [exact P | | constructor].
  intros m' r' E _. apply (f_equal String.length) in E.
  rewrite !length_app in E. simpl in E. lia.
Qed.

Lemma last_char_all (p : ascii -> bool) : forall n prev,
  n <> "" -> all p n = true -> exists d, last_char prev n = Some d /\ p d = true.
Proof.
  induction n as [|c n IH]; intros prev N A; [congruence |]. simpl in *.
  apply andb_true_iff in A. destruct A as [Pc A].
  destruct n as [|c' n]; [now exists c |]. apply IH; [discriminate | exact A].
Qed.

Lemma is_prop_last m :
  is_prop m -> exists d, last_char None m = Some d /\ is_digit_or_dot d = true.
Proof.
  intros (w & s1 & o & e & s2 & n & -> & _ & _ & _ & _ & _ & _ & Hn1 & Hn2).
  rewrite !last_char_app. simpl. rewrite !last_char_app.
  now apply last_char_all.
Qed.

Lemma digit_or_dot_cases d :
  is_digit_or_dot d = true -> Ascii.eqb d "." = false -> is_word d = true.
Proof. Extractor.by_cases d. Qed.

Lemma dot_not_word d : Ascii.eqb d "." = true -> is_word d = false.
Proof. Extractor.by_cases d. Qed.

(** A text that agrees with the key but stands before no word boundary is
    kept when it is the whole formula. *)
Lemma rename_nothing key name :
  plain key = true -> key <> "" -> contains_char "$" name = false ->
  word_boundary (last_char None key) "" = false ->
  rename_step key (key, name) = Ok key.
Proof.
  intros P N D B. unfold rename_step, word_regex, regex_replace. simpl fst. simpl snd.
  rewrite (Renamer.plain_key_items _ P). simpl bind. rewrite D. f_equal.
  pose proof (Substitution.key_min_len key) as L.
  assert (L0 : 0 < String.length key) by (destruct key; [congruence | simpl; lia]).
  unfold tokens. rewrite scan_unfold by lia.
  destruct (match_at false _ None key) as [[m rest]|] eqn:H.
  - exfalso. apply match_at_sound in H. destruct H as [E H].
    apply Substitution.key_Matches in H. destruct H as (A & _ & B2).
    apply Substitution.agree_length in A.
    assert (rest = "").
    { apply (f_equal String.length) in E. rewrite length_app in E.
      destruct rest; [reflexivity | simpl in E; lia]. }
    subst rest. rewrite app_nil_r in E. rewrite <- E in B2. congruence.
  - destruct key as [|c key]; [congruence |].
    cbn [substitute]. f_equal. apply substitute_short. rewrite L. simpl. lia.
Qed.

(** Property X9.  A formula that consists of one proposition: the extractor
    returns it whole and it is named [p1]; the renamed formula is [p1] when
    the proposition ends in a digit, but the proposition itself, unchanged,
    when its number ends in a period (as in [x > 1.]), because no word
    boundary follows the period. *)
Theorem single_proposition :
  forall m,
    is_prop m ->
    extractAtomicPropositions m = [m] /\
    SM.elements (build_map (extractAtomicPropositions m)) = [(m, "p1")] /\
    replaceAtomicProps m (build_map (extractAtomicPropositions m))
      = Ok (if ends_in_period m then m else "p1").
Proof.
  intros m P. rewrite (extract_proposition m P).
  split; [reflexivity |]. split; [reflexivity |].
  change (replaceAtomicProps m (build_map [m])) with (rename_step m (m, "p1")).
  destruct (is_prop_last m P) as (d & Ld & Pd).
  pose proof (Extractor.is_prop_plain m P) as Pl.
  pose proof (Renamer.is_prop_length m P) as Len.
  assert (N : m <> "") by (destruct m; [simpl in Len; lia | discriminate]).
  unfold ends_in_period. rewrite Ld. destruct (Ascii.eqb d ".") eqn:E.
  - apply rename_nothing; auto. rewrite Ld. unfold word_boundary.
    now rewrite (dot_not_word d E).
  - rewrite <- (app_nil_r m) at 1.
    replace "p1" with ("p1" ++ "")%string at 2 by reflexivity.
    destruct (Renamer.is_prop_first m P) as (c & m' & -> & W).
    apply Renamer.rename_front.
    + exact Pl.
    + apply Renamer.agree_refl.
    + simpl. lia.
    + rewrite app_nil_r. unfold word_boundary. now rewrite W.
    + rewrite Ld. unfold word_boundary. now rewrite (digit_or_dot_cases d Pd E).
    + reflexivity.
Qed.

Lemma single_proposition_witness :
  is_prop "x > 1." /\
  extractAtomicPropositions "x > 1." = ["x > 1."] /\
  replaceAtomicProps "x > 1." (build_map (extractAtomicPropositions "x > 1."))
    = Ok "x > 1.".
Proof.
  assert (P : is_prop "x > 1.").
  { exists "x", " ", ">"%char, "", " ", "1.". repeat split; try discriminate; auto. }
  destruct (single_proposition "x > 1." P) as (E & _ & R).
  exact (conj P (conj E R)).
Defined.

Lemma Extracts_empty s ms :
  Extracts s ms -> ms = [] ->
  forall pre m post, s = (pre ++ m ++ post)%string -> ~ is_prop m.
Proof.
  induction 1 as [|c s ms Np _ IH|m0 r0 ms P0 L0 _ _];
    intros Em pre m post E P; [| | discriminate].
  - apply Extractor.is_prop_nonempty in P.
    destruct pre; simpl in E; [destruct m; [congruence | discriminate] | discriminate].
  - destruct pre as [|c' pre]; simpl in E.
    + apply (Np m post E P).
    + injection E as _ E. apply (IH Em pre m post E P).
Qed.

(** Property X10.  The extractor returns the empty list exactly for the
    formulas in which no proposition occurs; such a formula passes through
    naming and renaming unchanged: the map is empty and the renamed formula is
    the formula. *)
Theorem no_proposition_no_renaming :
  forall s,
    (extractAtomicPropositions s = [] <->
     forall m, occurs m s -> ~ is_prop m) /\
    (extractAtomicPropositions s = [] ->
     SM.elements (build_map (extractAtomicPropositions s)) = [] /\
     replaceAtomicProps s (build_map (extractAtomicPropositions s)) = Ok s).
Proof.
  intros s. split; [split |].
  - intros E m (pre & post & Q).
    apply (Extracts_empty s _ (Extractor.extract_Extracts s) E pre m post Q).
  - intros N. apply (Extractor.Extracts_nothing s _ (Extractor.extract_Extracts s)).
    intros pre m post Q. apply N. now exists pre, post.
  - intros E. rewrite E. split; reflexivity.
Qed.

End Together.

(* ================================================================== *)
(** * Runs of [main] *)

Module Run.

Import StrFacts RegexFacts.

Lemma Renamed_all p key name prev s out :
  Renamed key name prev s out ->
  all p name = true -> all p s = true -> all p out = true.
Proof.
  intros R Hn. induction R as [prev|prev c s out _ _ IH|prev m r out _ _ IH]; intros Hs.
  - reflexivity.
  - simpl in *. apply andb_true_iff in Hs. destruct Hs as [Hc Hs].
    now rewrite Hc, (IH Hs).
  - rewrite all_app in *. apply andb_true_iff in Hs. destruct Hs as [_ Hs].
    now rewrite Hn, (IH Hs).
Qed.

Lemma rename_step_keeps p formula key name :
  plain key = true -> key <> "" -> contains_char "$" name = false ->
  all p name = true -> all p formula = true ->
  exists out, rename_step formula (key, name) = Ok out /\ all p out = true.
Proof.
  intros P N D Hn Hf.
  unfold rename_step, word_regex, regex_replace. simpl fst. simpl snd.
  rewrite (Renamer.plain_key_items _ P). simpl bind. rewrite D.
  eexists. split; [reflexivity |].
  apply (Renamed_all p key name None formula); auto.
  apply (Substitution.substitute_Renamed key name N (String.length formula)).
  apply Nat.le_refl.
Qed.

Lemma rename_fold_keeps p : forall pairs formula,
  (forall key name, In (key, name) pairs ->
     plain key = true /\ key <> "" /\ contains_char "$" name = false /\
     all p name = true) ->
  all p formula = true ->
  exists out,
    fold_left (fun acc pair => mitlFormula <- acc ;; rename_step mitlFormula pair)
              pairs (Ok formula) = Ok out /\
    all p out = true.
Proof.
  induction pairs as [|[key name] pairs IH]; intros formula H Hf; simpl; [eauto |].
  destruct (H key name (or_introl eq_refl)) as (P & N & D & Hn).
  destruct (rename_step_keeps p formula key name P N D Hn Hf) as (out & -> & Ho).
  apply IH; [| exact Ho]. intros k v I. apply H. now right.
Qed.

Lemma digits_keep p s :
  (forall c, is_digit c = true -> p c = true) -> all is_digit s = true -> all p s = true.
Proof. intros I. now apply all_impl. Qed.

(** The renamer of [main] brings in no character but [p] and the digits. *)
Lemma rename_keeps p formula atomicProps :
  Forall is_prop atomicProps ->
  p "p"%char = true -> (forall c, is_digit c = true -> p c = true) ->
  all p formula = true ->
  exists out, replaceAtomicProps formula (build_map atomicProps) = Ok out /\
              all p out = true.
Proof.
  intros F Pp Pd Hf. unfold replaceAtomicProps. apply rename_fold_keeps; [| exact Hf].
  intros key name I. apply Adequacy.elements_find in I. unfold build_map in I.
  apply PropMap.fill_map_binding in I. destruct I as [(i & Hi & ->) | I].
  - assert (K : is_prop key).
    { rewrite Forall_forall in F. apply F. now apply nth_error_In with i. }
    split; [now apply Extractor.is_prop_plain |].
    split; [now apply Extractor.is_prop_nonempty |].
    split; [apply Adequacy.boolean_name_no_dollar |].
    unfold boolean_name. rewrite all_app. simpl. rewrite Pp. simpl.
    apply digits_keep; [exact Pd |].
    apply Bounds.to_string_numeral. lia.
  - rewrite SMF.empty_o in I. discriminate.
Qed.

(** The pattern of the partitioner matches only where a [G] stands. *)
Lemma g_match_starts_with_G b prev s m rest :
  match_at b gPattern prev s = Some (m, rest) -> exists r, s = String "G" r.
Proof.
  intros H. apply match_at_sound in H. destruct H as [-> M].
  unfold gPattern in M.
  apply Extractor.Matches_cons_inv in M. destruct M as (m1 & m2 & -> & B & M).
  apply Substitution.MatchItem_bnd_inv in B. destruct B as [-> _].
  apply Extractor.Matches_cons_inv in M. destruct M as (m3 & m4 & -> & G & _).
  apply Extractor.MatchItem_one_inv in G. destruct G as (c & -> & G).
  apply Extractor.is_char_eq in G. subst c. simpl. eauto.
Qed.

Lemma search_without_G : forall s prev,
  contains_char "G" s = false -> regex_search_from gPattern prev s = None.
Proof.
  induction s as [|c s IH]; intros prev H; simpl.
  - now rewrite (match_at_empty _ _ _ Partitioner.g_min_len).
  - destruct (match_at false gPattern prev (String c s)) as [[m rest]|] eqn:E.
    + apply g_match_starts_with_G in E. destruct E as [r E]. injection E as -> _.
      discriminate.
    + change (String c s) with (String c "" ++ s)%string in H.
      rewrite contains_char_app in H. apply orb_false_iff in H.
      now rewrite (IH (Some c) (proj2 H)).
Qed.

(** Property X11.  When the line read as the formula holds no letter [G],
    [main] returns 0 whatever else the line holds: the renamer succeeds, its
    result holds no [G] either, the partitioner leaves it as it is, and it is
    this renamed formula that is handed to the writer together with the word
    read as the file name. *)
Theorem formula_without_G_is_written_renamed :
  forall fuel can_open stdin,
    301 <= fuel ->
    contains_char "G" (formula_read stdin) = false ->
    exists mitlFormula,
      replaceAtomicProps (formula_read stdin)
        (build_map (extractAtomicPropositions (formula_read stdin))) = Ok mitlFormula /\
      contains_char "G" mitlFormula = false /\
      (forall partitionPoints,
          partitionTemporalOperators mitlFormula partitionPoints = Ok mitlFormula) /\
      main fuel can_open stdin
        = Exited 0 (writeMITLToFile can_open mitlFormula (filename_read stdin)).
Proof.
  intros fuel can_open stdin L H.
  unfold formula_read, filename_read in *.
  set (p := fun c => negb (Ascii.eqb c "G")).
  assert (Hf : all p (fst (getline stdin)) = true).
  { unfold contains_char in H. apply negb_false_iff in H. exact H. }
  destruct (rename_keeps p (fst (getline stdin))
              (extractAtomicPropositions (fst (getline stdin))))
    as (out & R & Ho); [| reflexivity | | exact Hf |].
  { apply (Extractor.Extracts_props (fst (getline stdin))), Extractor.extract_Extracts. }
  { intros c D. revert D. Extractor.by_cases c. }
  assert (Hg : contains_char "G" out = false).
  { unfold contains_char. fold p. now rewrite Ho. }
  assert (Hp : forall partitionPoints,
             partitionTemporalOperators out partitionPoints = Ok out).
  { intros pts. unfold partitionTemporalOperators, regex_search.
    now rewrite (search_without_G out None Hg). }
  exists out. repeat split; auto.
  rewrite (Writer.main_fuel _ _ _ L). unfold main.
  destruct (getline stdin) as [stlFormula stdin']. simpl fst in *. simpl snd.
  unfold pipeline.
  destruct Example.signal_of_the_example as (signal & S & _ & C).
  rewrite S. simpl bind.
  destruct (constructStablePartitions signal) as [pts|]; [| discriminate].
  simpl bind. rewrite R. simpl bind. now rewrite Hp.
Qed.

Lemma formula_without_G_is_written_renamed_witness :
  let stdin := ("y < 2 and z > 1" ++ endl ++ "  out" ++ endl)%string in
  301 <= 301 /\
  contains_char "G" (formula_read stdin) = false /\
  exists mitlFormula,
    replaceAtomicProps (formula_read stdin)
      (build_map (extractAtomicPropositions (formula_read stdin))) = Ok mitlFormula /\
    main 301 (fun _ => true) stdin
      = Exited 0 (writeMITLToFile (fun _ => true) mitlFormula (filename_read stdin)).
Proof.
  intros stdin.
  destruct (formula_without_G_is_written_renamed 301 (fun _ => true) stdin
              (le_n 301) eq_refl) as (mitlFormula & R & _ & _ & M).
  split; [apply le_n |]. split; [reflexivity |].
  exists mitlFormula. split; [exact R | exact M].
Defined.

End Run.

(* ================================================================== *)
(** * The file written *)

Module Output.

Import StrFacts.





End Output.

(* ================================================================== *)
(** * The samples of the signal *)

Module Signal.

Lemma synthesize_from_spec T : forall fuel t signal,
  synthesize_from fuel T t = Ok signal ->
  (forall i u v, nth_error signal i = Some (u, v) ->
     u = Nat.iter i (fun t => add t tenth) t /\
     leb u T = true /\ v = [y u; z u; x u]) /\
  leb (Nat.iter (List.length signal) (fun t => add t tenth) t) T = false /\
  List.length signal < fuel.
Proof.
  induction fuel as [|fuel IH]; intros t signal H; simpl in H; [discriminate |].
  destruct (leb t T) eqn:E.
  - destruct (synthesize_from fuel T (add t tenth)) as [rest|] eqn:R; [| discriminate].
    simpl in H. injection H as <-.
    destruct (IH _ _ R) as (A & B & C). split; [| split].
    + intros [|i] u v Hi; simpl in Hi.
      * injection Hi as <- <-. simpl. auto.
      * rewrite Nat.iter_succ_r. now apply A.
    + simpl List.length. now rewrite Nat.iter_succ_r.
    + simpl. lia.
  - injection H as <-. split; [| split].
    + intros [|i] u v Hi; discriminate.
    + exact E.
    + simpl. lia.
Qed.

(** Property X13.  Whenever the signal loop ends, the sample with index [i]
    carries the time obtained from 0 by [i] additions of the double nearest to
    0.1, this time is not beyond the horizon, and its three truth values are
    those of the three step functions at that very time; the number of samples
    is the first index whose time is beyond the horizon.  A horizon below 0
    gives the empty signal. *)
Theorem samples_of_the_signal :
  forall fuel T signal,
    synthesizeSignal fuel T = Ok signal ->
    (forall i t v, nth_error signal i = Some (t, v) ->
       t = time_of i /\ leb t T = true /\ v = [y t; z t; x t]) /\
    leb (time_of (List.length signal)) T = false /\
    (forall i, i < List.length signal -> leb (time_of i) T = true) /\
    (leb (of_int 0) T = false -> signal = []).
Proof.
  intros fuel T signal H. unfold synthesizeSignal in H.
  destruct (synthesize_from_spec T _ _ _ H) as (A & B & _).
  split; [exact A |]. split; [exact B |]. split.
  - intros i L. destruct (nth_error signal i) as [[t v]|] eqn:N.
    + destruct (A i t v N) as (-> & Ht & _). exact Ht.
    + apply nth_error_None in N. lia.
  - intros Z. destruct signal as [|[t v] rest]; [reflexivity |].
    destruct (A 0 t v eq_refl) as (-> & Ht & _).
    change (Nat.iter 0 (fun t => add t tenth) (of_int 0)) with (of_int 0) in Ht.
    congruence.
Qed.

Lemma samples_of_the_signal_witness :
  exists signal,
    synthesizeSignal 10 (of_ratio 1 4) = Ok signal /\
    List.length signal = 3 /\
    leb (time_of 3) (of_ratio 1 4) = false /\
    forall i t v, nth_error signal i = Some (t, v) ->
      t = time_of i /\ leb t (of_ratio 1 4) = true /\ v = [y t; z t; x t].
Proof.
  destruct (synthesizeSignal 10 (of_ratio 1 4)) as [signal|] eqn:H;
    [| vm_compute in H; discriminate].
  exists signal. split; [reflexivity |].
  assert (Len : match synthesizeSignal 10 (of_ratio 1 4) with
                | Ok s => List.length s | Fail _ => 0 end = 3)
    by (vm_compute; reflexivity).
  rewrite H in Len. split; [exact Len |].
  destruct (samples_of_the_signal 10 (of_ratio 1 4) signal H) as (A & B & _).
  rewrite Len in B. split; [exact B | exact A].
Defined.

Lemma partitions_from_fail : forall signal before acc f,
  partitions_from before signal acc = Fail f <->
  f = undefined /\ exists i, change_beyond_int (before :: signal) i.
Proof.
  induction signal as [|here signal IH]; intros before acc f; simpl.
  - split; [discriminate |]. intros (_ & i & b & h & _ & Hh & _).
    destruct i; discriminate.
  - destruct (vector_bool_eqb (snd here) (snd before)) eqn:E.
    + apply Changes.vector_bool_eqb_spec in E. rewrite IH. split.
      * intros (-> & i & b & h & Hb & Hh & N & R). split; [reflexivity |].
        exists (S i), b, h. auto.
      * intros (-> & i & b & h & Hb & Hh & N & R). split; [reflexivity |].
        destruct i as [|i]; simpl in Hb, Hh.
        -- injection Hb as <-. injection Hh as <-. congruence.
        -- exists i, b, h. auto.
    + assert (N : snd here <> snd before).
      { intros Q. apply Changes.vector_bool_eqb_spec in Q. congruence. }
      destruct (to_int (round (fst here))) as [q|f'] eqn:R; simpl.
      * rewrite IH. split.
        -- intros (-> & i & b & h & Hb & Hh & N' & R'). split; [reflexivity |].
           exists (S i), b, h. auto.
        -- intros (-> & i & b & h & Hb & Hh & N' & R'). split; [reflexivity |].
           destruct i as [|i]; simpl in Hb, Hh.
           ++ injection Hb as <-. injection Hh as <-. congruence.
           ++ exists i, b, h. auto.
      * pose proof (Adequacy.to_int_faults _ _ R) as ->. split.
        -- intros Q. injection Q as <-. split; [reflexivity |].
           exists 0, before, here. auto.
        -- now intros (-> & _).
Qed.

(** Property X14.  The construction of the partition points fails in one way
    only: it is undefined exactly when the signal has a sample whose truth
    values differ from those of the sample before and whose rounded time is
    not an [int] (too large, infinite or not a number).  The times of the
    samples at which nothing changes are never converted. *)
Theorem partition_points_undefined :
  forall signal f,
    constructStablePartitions signal = Fail f <->
    f = undefined /\ exists i, change_beyond_int signal i.
Proof.
  intros [|first signal] f; simpl.
  - split; [discriminate |]. intros (_ & i & b & h & Hb & _). destruct i; discriminate.
  - apply partitions_from_fail.
Qed.

(** Property X15.  The signal that [main] synthesizes for its horizon 30 has
    300 samples, not 301: the time reached after 300 additions of 0.1 lies
    above 30.  The accumulated time lies below the nominal one at the indices
    50, 80, 100 and 150, so that the truth values change one sample later, at
    the indices 51, 81, 101 and 151; at index 200 it is not below 20 and the
    change happens there. *)
Theorem signal_of_main_drifts :
  forall fuel, 301 <= fuel ->
    exists signal,
      synthesizeSignal fuel horizon = Ok signal /\
      List.length signal = 300 /\
      ltb horizon (time_of 300) = true /\
      map (fun i => option_map snd (nth_error signal i))
          [0; 50; 51; 80; 81; 100; 101; 150; 151; 199; 200; 299]
      = map Some [[true; false; false]; [true; false; false]; [true; true; false];
                  [true; true; false]; [true; true; true];
                  [true; true; true]; [false; true; true];
                  [false; true; true]; [false; false; true];
                  [false; false; true]; [false; false; false];
                  [false; false; false]] /\
      map (fun i => ltb (time_of (10 * i)) (of_int (Z.of_nat i))) [5; 8; 10; 15; 20]
      = [true; true; true; true; false].
Proof.
  intros fuel L.
  destruct (synthesizeSignal 301 horizon) as [signal|] eqn:E;
    [| vm_compute in E; discriminate].
  exists signal. split.
  - replace fuel with (301 + (fuel - 301)) by lia. unfold synthesizeSignal in *.
    now apply Example.synthesize_more_fuel.
  - assert (E' : Ok signal = synthesizeSignal 301 horizon) by (now rewrite E).
    clear E. vm_compute in E'. injection E' as ->. vm_compute. repeat split; reflexivity.
Qed.

Lemma signal_of_main_drifts_witness :
  301 <= 301 /\
  exists signal,
    synthesizeSignal 301 horizon = Ok signal /\ List.length signal = 300.
Proof.
  split; [apply le_n |].
  destruct (signal_of_main_drifts 301 (le_n 301)) as (signal & S & Len & _).
  exists signal. split; [exact S | exact Len].
Defined.

End Signal.
